(** * Overview.tsx: the learning-pathways diagram builder

    A shallow embedding of [src/components/Overview.tsx].  The component
    turns the static list of sequences into the node and edge arrays handed
    to the graph renderer ([useMemo] body, lines 103-216) and extracts a
    video identifier from a video URL ([getYouTubeVideoId], lines 22-26).

    Conventions of the embedding:
    - JavaScript strings are [string]s, template literals are [++];
    - the numbers of the layout are integers ([Z]); they stay far below
      2^53, so the floating point arithmetic of the source is exact;
    - the arrays [nodes] and [edges] and the variable [yOffset], mutated by
      the callbacks, are threaded through a [Builder] state;
    - a member access on [undefined] raises a TypeError in the source: a
      callback returns [option Builder], [None] standing for the throw. *)

From Stdlib Require Import String Ascii ZArith Lia Bool Arith Sorted List.
Import ListNotations.

Local Open Scope string_scope.
Local Open Scope list_scope.

(** ** The input data ([sequences.json]) *)

Record Video := mkVideo {
  video_id : string;
  video_title : string;
  video_description : string;
  video_url : string;
  video_dependencies : option (list string)   (* absent or an array *)
}.

Record Sequence := mkSequence {
  sequence_id : string;
  sequence_title : string;
  sequence_description : string;
  sequence_color : string;
  sequence_videos : list Video
}.

(** ** The derived diagram *)

Inductive NodeType := videoNode | sequenceHeader.

Record Position := mkPosition { pos_x : Z; pos_y : Z }.

Inductive NodeData :=
| HeaderData (title description color : string)
| VideoData (title description url sequenceColor : string).

Record Node := mkNode {
  node_id : string;
  node_type : NodeType;
  node_position : Position;
  node_data : NodeData
}.

Record EdgeStyle := mkEdgeStyle {
  stroke : string;
  strokeWidth : Z;
  strokeDasharray : option string
}.

Record LabelStyle := mkLabelStyle {
  label_fill : string;
  label_fontWeight : Z;
  label_fontSize : Z
}.

Record EdgeLabel := mkEdgeLabel {
  label_text : string;
  labelStyle : LabelStyle;
  labelBgPadding : Z * Z;
  labelBgBorderRadius : Z;
  labelBgFill : string;
  labelBgFillOpacityPercent : Z
}.

Record Edge := mkEdge {
  edge_id : string;
  edge_source : string;
  edge_sourceHandle : string;
  edge_target : string;
  edge_targetHandle : string;
  edge_type : string;
  edge_style : EdgeStyle;
  edge_label : option EdgeLabel
}.

(** The two kinds of edge are told apart by the handle they leave from. *)
Definition isSequenceFlow (e : Edge) : bool :=
  (edge_sourceHandle e =? "sequence-out")%string.

Definition isPrerequisite (e : Edge) : bool :=
  (edge_sourceHandle e =? "prereq-out")%string.

(** ** The builder state and [Array.prototype.forEach] *)

Record Builder := mkBuilder {
  nodes : list Node;
  edges : list Edge;
  yOffset : Z
}.

Definition push_node (n : Node) (st : Builder) : Builder :=
  mkBuilder (nodes st ++ [n]) (edges st) (yOffset st).

Definition push_edge (e : Edge) (st : Builder) : Builder :=
  mkBuilder (nodes st) (edges st ++ [e]) (yOffset st).

(** [forEachFrom f l i st] calls [f] on the elements of [l] in order, the
    first one with index [i]; a throw in a callback ends the loop. *)
Fixpoint forEachFrom {A : Type} (f : A -> nat -> Builder -> option Builder)
    (l : list A) (i : nat) (st : Builder) : option Builder :=
  match l with
  | [] => Some st
  | a :: l' =>
      match f a i st with
      | Some st' => forEachFrom f l' (S i) st'
      | None => None
      end
  end.

Definition forEach {A : Type} (f : A -> nat -> Builder -> option Builder)
    (l : list A) (st : Builder) : option Builder :=
  forEachFrom f l 0 st.

(** ** Constants of the layout (lines 108-109) *)

Definition sequenceSpacing : Z := 600.
Definition videoSpacing : Z := 420.

(** ** Node and edge literals *)

Definition headerNodeId (sequence : Sequence) : string :=
  ("sequence-" ++ sequence_id sequence)%string.

Definition videoNodeId (sequence : Sequence) (video : Video) : string :=
  (sequence_id sequence ++ "-" ++ video_id video)%string.

(** Lines 116-125. *)
Definition headerNode (sequence : Sequence) (y : Z) : Node :=
  mkNode (headerNodeId sequence) sequenceHeader (mkPosition 0 y)
    (HeaderData (sequence_title sequence) (sequence_description sequence)
       (sequence_color sequence)).

(** Lines 131-144. *)
Definition videoNodeOf (sequence : Sequence) (video : Video)
    (videoIndex : nat) (y : Z) : Node :=
  mkNode (videoNodeId sequence video) videoNode
    (mkPosition (Z.of_nat (videoIndex + 1) * videoSpacing) y)
    (VideoData (video_title video) (video_description video)
       (video_url video) (sequence_color sequence)).

(** Lines 148-156 and 162-170: the two literals have the same shape. *)
Definition flowEdge (source target color : string) : Edge :=
  mkEdge (source ++ "-" ++ target)%string source "sequence-out" target "sequence-in"
    "smoothstep" (mkEdgeStyle color 2 None) None.

(** U+1F517 in UTF-8, followed by the word of the label (line 194). *)
Definition prerequisiteLabel : string :=
  String "240" (String "159" (String "148" (String "151" " prerequisite"))).

(** Lines 182-203. *)
Definition prerequisiteEdge (source target : string) : Edge :=
  mkEdge (source ++ "-" ++ target ++ "-dependency")%string source "prereq-out"
    target "prereq-in" "smoothstep"
    (mkEdgeStyle "#ef4444" 3 (Some "8,4"))
    (Some (mkEdgeLabel prerequisiteLabel (mkLabelStyle "#ef4444" 600 12)
             (8, 4)%Z 4 "white" 90)).

(** ** Resolution of a dependency identifier (lines 176-179) *)

Definition hasId (depId : string) (v : Video) : bool :=
  (video_id v =? depId)%string.

(** [sequences.find(seq => seq.videos.some(v => v.id === depId))] *)
Definition owningSequence (sequences : list Sequence) (depId : string)
    : option Sequence :=
  find (fun seq => existsb (hasId depId) (sequence_videos seq)) sequences.

(** The conditional expression: a string when some video of the flattened
    list has the identifier, [null] ([None]) otherwise.  The optional chain
    [?.id] yields [undefined] when no sequence is found, which the template
    literal prints as the word "undefined". *)
Definition sourceNodeId (sequences : list Sequence) (depId : string)
    : option string :=
  match find (hasId depId) (flat_map sequence_videos sequences) with
  | Some _ =>
      Some ((match owningSequence sequences depId with
             | Some seq => sequence_id seq
             | None => "undefined"
             end) ++ "-" ++ depId)%string
  | None => None
  end.

(** Truthiness of a value that is a string or [null]. *)
Definition truthy (s : option string) : bool :=
  match s with
  | Some EmptyString => false
  | Some _ => true
  | None => false
  end.

(** ** The three nested callbacks *)

(** Lines 175-205: callback of [video.dependencies.forEach]. *)
Definition dependencyCallback (sequences : list Sequence) (nodeId : string)
    (depId : string) (_ : nat) (st : Builder) : option Builder :=
  let src := sourceNodeId sequences depId in
  if truthy src then
    match src with
    | Some s => Some (push_edge (prerequisiteEdge s nodeId) st)
    | None => Some st
    end
  else Some st.

(** Lines 128-207: callback of [sequence.videos.forEach]. *)
Definition videoCallback (sequences : list Sequence) (sequence : Sequence)
    (video : Video) (videoIndex : nat) (st : Builder) : option Builder :=
  let nodeId := videoNodeId sequence video in
  let st1 := push_node (videoNodeOf sequence video videoIndex (yOffset st)) st in
  let st2 :=
    if (videoIndex =? 0)%nat
    then push_edge (flowEdge (headerNodeId sequence) nodeId
                      (sequence_color sequence)) st1
    else st1 in
  let st3 :=
    if (0 <? videoIndex)%nat then
      match nth_error (sequence_videos sequence) (videoIndex - 1) with
      | Some prev =>
          Some (push_edge (flowEdge (videoNodeId sequence prev) nodeId
                             (sequence_color sequence)) st2)
      | None => None   (* [undefined.id] *)
      end
    else Some st2 in
  match st3 with
  | Some st3 =>
      match video_dependencies video with
      | Some deps => forEach (dependencyCallback sequences nodeId) deps st3
      | None => Some st3
      end
  | None => None
  end.

(** Lines 113-210: callback of [sequences.forEach]. *)
Definition sequenceCallback (sequences : list Sequence)
    (sequence : Sequence) (_ : nat) (st : Builder) : option Builder :=
  let st1 := push_node (headerNode sequence (yOffset st)) st in
  match forEach (videoCallback sequences sequence)
          (sequence_videos sequence) st1 with
  | Some st2 =>
      Some (mkBuilder (nodes st2) (edges st2) (yOffset st2 + sequenceSpacing))
  | None => None
  end.

(** Lines 103-216: the body of [useMemo]. *)
Definition initialBuilder : Builder := mkBuilder [] [] 0.

Definition buildDiagram (sequences : list Sequence)
    : option (list Node * list Edge) :=
  match forEach (sequenceCallback sequences) sequences initialBuilder with
  | Some st => Some (nodes st, edges st)
  | None => None
  end.

(** ** The example of the specification *)

Definition video_a1 : Video := mkVideo "a1" "t-a1" "d-a1" "u-a1" None.
Definition video_a2 : Video := mkVideo "a2" "t-a2" "d-a2" "u-a2" None.
Definition video_b1 : Video := mkVideo "b1" "t-b1" "d-b1" "u-b1" (Some ["a2"]).
Definition sequence_A : Sequence :=
  mkSequence "A" "t-A" "d-A" "red" [video_a1; video_a2].
Definition sequence_B : Sequence :=
  mkSequence "B" "t-B" "d-B" "blue" [video_b1].
Definition example_sequences : list Sequence := [sequence_A; sequence_B].

Definition node_ids (ns : list Node) : list string := map node_id ns.
Definition endpoints (e : Edge) : string * string :=
  (edge_source e, edge_target e).

(** ** [getYouTubeVideoId] (lines 22-26)

    The regular expression is
    [(?:youtube\.com\/watch\?v=|youtu\.be\/|youtube\.com\/embed\/)([^&\n?#]+)].
    [String.prototype.match] looks for the leftmost position at which it
    matches; at a position the alternatives are tried in order, and the
    greedy class takes the longest run of allowed characters, which must
    not be empty. *)

Definition alternatives : list string :=
  ["youtube.com/watch?v="; "youtu.be/"; "youtube.com/embed/"].

(** The character class [[^&\n?#]]. *)
Definition idChar (c : ascii) : bool :=
  negb ((c =? "&")%char || (c =? "010")%char || (c =? "?")%char
        || (c =? "#")%char).

(** The longest run matched by the class at the head of [s]. *)
Fixpoint takeClass (s : string) : string :=
  match s with
  | EmptyString => EmptyString
  | String c r => if idChar c then String c (takeClass r) else EmptyString
  end.

(** What is left of [s] after the literal [p], when [s] starts with it. *)
Fixpoint afterLiteral (p s : string) : option string :=
  match p with
  | EmptyString => Some s
  | String a p' =>
      match s with
      | EmptyString => None
      | String b s' => if (a =? b)%char then afterLiteral p' s' else None
      end
  end.

(** The match of the whole expression anchored at the head of [s]:
    the capture group, when there is one. *)
Fixpoint matchHere (alts : list string) (s : string) : option string :=
  match alts with
  | [] => None
  | p :: alts' =>
      match afterLiteral p s with
      | Some rest =>
          match takeClass rest with
          | EmptyString => matchHere alts' s
          | String c r => Some (String c r)
          end
      | None => matchHere alts' s
      end
  end.

(** The leftmost match. *)
Fixpoint matchAnywhere (s : string) : option string :=
  match matchHere alternatives s with
  | Some g => Some g
  | None =>
      match s with
      | EmptyString => None
      | String _ r => matchAnywhere r
      end
  end.

Definition getYouTubeVideoId (url : string) : option string :=
  matchAnywhere url.

(** Lines 30 and 44-56 of [VideoNode]: the [src] of the embedded player,
    rendered only when [videoId] is truthy. *)
Definition videoEmbedSrc (url : string) : option string :=
  let videoId := getYouTubeVideoId url in
  if truthy videoId then
    match videoId with
    | Some id => Some ("https://www.youtube.com/embed/" ++ id)%string
    | None => None
    end
  else None.

(** The URL shapes, as the specification words them: the URL contains one
    of the three literals. *)
Definition containsLiteral (url : string) : Prop :=
  exists p pre post, In p alternatives /\ url = (pre ++ p ++ post)%string.

(** A test for [containsLiteral]. *)
Fixpoint literalAnywhere (s : string) : bool :=
  existsb (fun p => match afterLiteral p s with
                    | Some _ => true
                    | None => false
                    end) alternatives
  || match s with
     | EmptyString => false
     | String _ r => literalAnywhere r
     end.

(** The shape the expression asks for: one of the three literals followed
    by at least one character of the class. *)
Definition containsLiteralAndId (url : string) : Prop :=
  exists p pre c post,
    In p alternatives /\ idChar c = true /\
    url = (pre ++ p ++ String c post)%string.

(** ** What one callback adds to the arrays

    The arrays only grow: what a run of a callback appends does not depend
    on what the arrays held before.  The appended part is read off a run
    from empty arrays. *)

Definition sequenceEmitsEdges (sequences : list Sequence) (s : Sequence)
    : list Edge :=
  match sequenceCallback sequences s 0 initialBuilder with
  | Some st => edges st
  | None => []
  end.

Definition dependenciesOf (v : Video) : list string :=
  match video_dependencies v with
  | Some deps => deps
  | None => []
  end.

Definition totalVideos (sequences : list Sequence) : nat :=
  list_sum (map (fun s => length (sequence_videos s)) sequences).

(** Index of the header node of the [k]-th sequence in the node array. *)
Definition headerIndex (sequences : list Sequence) (k : nat) : nat :=
  k + totalVideos (firstn k sequences).

Definition hasVideo (sequences : list Sequence) (depId : string) : Prop :=
  exists s v, In s sequences /\ In v (sequence_videos s) /\ video_id v = depId.

(** No hyphen occurs in [s]. *)
Fixpoint hyphenFree (s : string) : bool :=
  match s with
  | EmptyString => true
  | String c r => negb (c =? "-")%char && hyphenFree r
  end.

(** The identifiers given to the nodes of one sequence, in array order. *)
Definition nodeIdsOf (s : Sequence) : list string :=
  headerNodeId s :: map (videoNodeId s) (sequence_videos s).

(** The conditions under which the naming scheme is injective. *)
Definition wellNamed (s : Sequence) : Prop :=
  hyphenFree (sequence_id s) = true /\ sequence_id s <> "sequence".

(** ** Closed forms of the loops *)

Section ClosedForms.

Variable sequences : list Sequence.

Definition dependencyEdges (nodeId : string) (deps : list string) : list Edge :=
  flat_map (fun depId =>
              match sourceNodeId sequences depId with
              | Some src => [prerequisiteEdge src nodeId]
              | None => []
              end) deps.

Fixpoint videoNodesFrom (s : Sequence) (y : Z) (i : nat) (vs : list Video)
    : list Node :=
  match vs with
  | [] => []
  | v :: vs' => videoNodeOf s v i y :: videoNodesFrom s y (S i) vs'
  end.

Fixpoint videoEdgesFrom (s : Sequence) (prevNodeId : string) (vs : list Video)
    : list Edge :=
  match vs with
  | [] => []
  | v :: vs' =>
      flowEdge prevNodeId (videoNodeId s v) (sequence_color s)
        :: dependencyEdges (videoNodeId s v) (dependenciesOf v)
        ++ videoEdgesFrom s (videoNodeId s v) vs'
  end.

Definition sequenceNodes (s : Sequence) (y : Z) : list Node :=
  headerNode s y :: videoNodesFrom s y 0 (sequence_videos s).

Definition sequenceEdges (s : Sequence) : list Edge :=
  videoEdgesFrom s (headerNodeId s) (sequence_videos s).

Fixpoint allNodesFrom (y : Z) (seqs : list Sequence) : list Node :=
  match seqs with
  | [] => []
  | s :: seqs' => sequenceNodes s y ++ allNodesFrom (y + sequenceSpacing) seqs'
  end.

End ClosedForms.

(** The node the next flow edge leaves from, after the videos [pre]. *)
Definition previousNodeId (s : Sequence) (pre : list Video) : string :=
  last (map (videoNodeId s) pre) (headerNodeId s).

(** Nodes are told apart by their [type]. *)
Definition isHeader (n : Node) : bool :=
  match node_type n with sequenceHeader => true | videoNode => false end.

Definition isVideoNode (n : Node) : bool :=
  match node_type n with videoNode => true | sequenceHeader => false end.

(** ** Inputs used in examples *)

(** One sequence whose only video carries the sequence's own name. *)
Definition clash_sequences : list Sequence :=
  [mkSequence "sequence" "t" "d" "red"
     [mkVideo "sequence" "t" "d" "u" None]].

(** A hyphen in a sequence identifier. *)
Definition hyphen_sequences : list Sequence :=
  [mkSequence "a" "t" "d" "red" [mkVideo "b-c" "t" "d" "u" None];
   mkSequence "a-b" "t" "d" "blue" [mkVideo "c" "t" "d" "u" None]].

(** Two sequences with the same identifier. *)
Definition twin_sequences : list Sequence :=
  [mkSequence "a" "t1" "d1" "red" []; mkSequence "a" "t2" "d2" "blue" []].

(** The identifier "x" is a video of the second and of the third sequence;
    a video of the first sequence depends on it, and on "nowhere". *)
Definition shared_sequences : list Sequence :=
  [mkSequence "P" "t" "d" "red" [mkVideo "p" "t" "d" "u" (Some ["x"; "nowhere"])];
   mkSequence "Q" "t" "d" "green" [mkVideo "x" "t" "d" "u" None];
   mkSequence "R" "t" "d" "blue" [mkVideo "x" "t" "d" "u" None]].

(** A sequence without videos between two others. *)
Definition empty_sequence : Sequence := mkSequence "E" "t" "d" "grey" [].

(** ** Vocabulary for further properties of the builder *)

(** The identifiers given to the video nodes, in array order. *)
Definition videoNodeIds (sequences : list Sequence) : list string :=
  flat_map (fun s => map (videoNodeId s) (sequence_videos s)) sequences.

(** All entries of all dependency lists, in the order the loops visit
    them. *)
Definition allDependencyEntries (sequences : list Sequence) : list string :=
  flat_map (fun s => flat_map dependenciesOf (sequence_videos s)) sequences.

(** Some video of the data set has the identifier. *)
Definition resolves (sequences : list Sequence) (depId : string) : bool :=
  existsb (fun seq => existsb (hasId depId) (sequence_videos seq)) sequences.

(** Every dependency entry names a video of the same data set. *)
Definition dependencyClosed (sequences : list Sequence) : bool :=
  forallb (resolves sequences) (allDependencyEntries sequences).

(** A node moved down by [dy]. *)
Definition moveDown (dy : Z) (n : Node) : Node :=
  mkNode (node_id n) (node_type n)
    (mkPosition (pos_x (node_position n)) (pos_y (node_position n) + dy))
    (node_data n).

(** Reading order of the canvas: rows from the top, each from the left. *)
Definition rowMajor (p q : Position) : Prop :=
  (pos_y p < pos_y q)%Z \/ (pos_y p = pos_y q /\ (pos_x p < pos_x q)%Z).



(** ** Vocabulary for further properties of the URL expression *)

Fixpoint allIdChars (s : string) : bool :=
  match s with
  | EmptyString => true
  | String c r => idChar c && allIdChars r
  end.

(** [rest] is empty or starts with a character outside the class. *)
Definition delimited (rest : string) : bool :=
  match rest with
  | EmptyString => true
  | String c _ => negb (idChar c)
  end.

(** The letter y does not occur in [s]. *)
Fixpoint noY (s : string) : bool :=
  match s with
  | EmptyString => true
  | String c r => negb (c =? "y")%char && noY r
  end.

(** The expression matches at no position inside [pre], when [pre] is
    followed by [tail]. *)
Definition noEarlierMatch (pre tail : string) : Prop :=
  forall pre1 pre2 q c post,
    pre = (pre1 ++ pre2)%string -> pre2 <> EmptyString ->
    In q alternatives -> idChar c = true ->
    (pre2 ++ tail)%string <> (q ++ String c post)%string.

(** ** Strings *)

Lemma truthy_append (a : string) (c : ascii) (b : string) :
  truthy (Some (a ++ String c b)%string) = true.
Proof. destruct a; reflexivity. Qed.

Lemma truthy_hyphenated (a b : string) :
  truthy (Some (a ++ "-" ++ b)%string) = true.
Proof. apply (truthy_append a "-" b). Qed.

(** ** The loops compute their closed forms *)

Section Loops.

Variable sequences : list Sequence.

Lemma sourceNodeId_truthy depId src :
  sourceNodeId sequences depId = Some src -> truthy (Some src) = true.
Proof.
  unfold sourceNodeId.
  destruct (find (hasId depId) (flat_map sequence_videos sequences)); [|discriminate].
  intros [= <-]. apply truthy_append.
Qed.

Lemma dependencyCallback_eq nodeId depId i st :
  dependencyCallback sequences nodeId depId i st =
  Some (mkBuilder (nodes st)
          (edges st ++ dependencyEdges sequences nodeId [depId]) (yOffset st)).
Proof.
  unfold dependencyCallback, dependencyEdges. simpl.
  destruct (sourceNodeId sequences depId) as [src|] eqn:E.
  - rewrite (sourceNodeId_truthy _ _ E). rewrite app_nil_r. reflexivity.
  - simpl. rewrite app_nil_r. destruct st; reflexivity.
Qed.

Lemma forEach_dependency nodeId deps : forall i st,
  forEachFrom (dependencyCallback sequences nodeId) deps i st =
  Some (mkBuilder (nodes st)
          (edges st ++ dependencyEdges sequences nodeId deps) (yOffset st)).
Proof.
  induction deps as [|d deps IH]; intros i st; simpl.
  - rewrite app_nil_r. destruct st; reflexivity.
  - rewrite dependencyCallback_eq, IH. simpl.
    rewrite app_nil_r, <- app_assoc. reflexivity.
Qed.

Lemma previousNodeId_snoc s pre v :
  previousNodeId s (pre ++ [v]) = videoNodeId s v.
Proof. unfold previousNodeId. rewrite map_app. simpl. apply last_last. Qed.

Lemma videoCallback_eq s pre v rest st :
  sequence_videos s = pre ++ v :: rest ->
  videoCallback sequences s v (length pre) st =
  Some (mkBuilder
          (nodes st ++ [videoNodeOf s v (length pre) (yOffset st)])
          (edges st ++
             flowEdge (previousNodeId s pre) (videoNodeId s v) (sequence_color s)
             :: dependencyEdges sequences (videoNodeId s v) (dependenciesOf v))
          (yOffset st)).
Proof.
  intros Hvs. unfold videoCallback, dependenciesOf.
  destruct pre as [|p0 pre0] using rev_ind.
  - simpl. destruct (video_dependencies v) as [deps|].
    + unfold forEach. rewrite forEach_dependency. simpl.
      rewrite <- app_assoc. reflexivity.
    + reflexivity.
  - clear IHpre0. rewrite previousNodeId_snoc.
    rewrite length_app. simpl length.
    replace (length pre0 + 1 =? 0)%nat with false
      by (symmetry; apply Nat.eqb_neq; lia).
    replace (0 <? length pre0 + 1)%nat with true
      by (symmetry; apply Nat.ltb_lt; lia).
    replace (length pre0 + 1 - 1)%nat with (length pre0) by lia.
    rewrite Hvs, <- app_assoc. simpl app at 1.
    rewrite nth_error_app2 by lia. rewrite Nat.sub_diag. simpl nth_error.
    destruct (video_dependencies v) as [deps|].
    + unfold forEach. rewrite forEach_dependency. simpl.
      rewrite <- app_assoc. reflexivity.
    + reflexivity.
Qed.

Lemma forEach_video s : forall rest pre st,
  sequence_videos s = pre ++ rest ->
  forEachFrom (videoCallback sequences s) rest (length pre) st =
  Some (mkBuilder
          (nodes st ++ videoNodesFrom s (yOffset st) (length pre) rest)
          (edges st ++ videoEdgesFrom sequences s (previousNodeId s pre) rest)
          (yOffset st)).
Proof.
  induction rest as [|v rest IH]; intros pre st Hvs; simpl.
  - rewrite !app_nil_r. destruct st; reflexivity.
  - rewrite (videoCallback_eq s pre v rest st Hvs).
    assert (Hvs' : sequence_videos s = (pre ++ [v]) ++ rest)
      by (rewrite <- app_assoc; exact Hvs).
    specialize (IH (pre ++ [v])). rewrite length_app in IH. simpl in IH.
    replace (S (length pre)) with (length pre + 1)%nat by lia.
    rewrite (IH _ Hvs'). simpl. rewrite previousNodeId_snoc.
    rewrite <- !app_assoc. reflexivity.
Qed.

Lemma sequenceCallback_eq s i st :
  sequenceCallback sequences s i st =
  Some (mkBuilder (nodes st ++ sequenceNodes s (yOffset st))
          (edges st ++ sequenceEdges sequences s)
          (yOffset st + sequenceSpacing)).
Proof.
  unfold sequenceCallback, forEach.
  rewrite (forEach_video s (sequence_videos s) [] _ eq_refl). simpl.
  rewrite <- app_assoc. reflexivity.
Qed.

Lemma forEach_sequence : forall seqs i st,
  forEachFrom (sequenceCallback sequences) seqs i st =
  Some (mkBuilder (nodes st ++ allNodesFrom (yOffset st) seqs)
          (edges st ++ flat_map (sequenceEdges sequences) seqs)
          (yOffset st + Z.of_nat (length seqs) * sequenceSpacing)).
Proof.
  induction seqs as [|s seqs IH]; intros i st.
  - simpl. rewrite !app_nil_r, Z.add_0_r. destruct st; reflexivity.
  - cbn [forEachFrom]. rewrite sequenceCallback_eq, IH.
    cbn [nodes edges yOffset allNodesFrom flat_map length].
    rewrite <- !app_assoc. do 2 f_equal. lia.
Qed.

Lemma buildDiagram_eq :
  buildDiagram sequences =
  Some (allNodesFrom 0 sequences, flat_map (sequenceEdges sequences) sequences).
Proof.
  unfold buildDiagram, forEach. rewrite forEach_sequence. reflexivity.
Qed.

Lemma sequenceEmitsEdges_eq s :
  sequenceEmitsEdges sequences s = sequenceEdges sequences s.
Proof. unfold sequenceEmitsEdges. rewrite sequenceCallback_eq. reflexivity. Qed.

End Loops.

(** ** Sequence-flow and prerequisite edges in the closed forms *)

Section EdgeKinds.

Variable sequences : list Sequence.

Lemma flow_of_dependencyEdges nodeId deps :
  filter isSequenceFlow (dependencyEdges sequences nodeId deps) = [].
Proof.
  induction deps as [|d deps IH]; simpl; [reflexivity|].
  rewrite filter_app, IH, app_nil_r.
  destruct (sourceNodeId sequences d); reflexivity.
Qed.

Lemma prerequisite_of_dependencyEdges nodeId deps :
  filter isPrerequisite (dependencyEdges sequences nodeId deps) =
  dependencyEdges sequences nodeId deps.
Proof.
  induction deps as [|d deps IH]; simpl; [reflexivity|].
  rewrite filter_app, IH. f_equal.
  destruct (sourceNodeId sequences d); reflexivity.
Qed.

Lemma flow_of_videoEdgesFrom s : forall vs prev,
  map endpoints (filter isSequenceFlow (videoEdgesFrom sequences s prev vs)) =
  combine (prev :: map (videoNodeId s) vs) (map (videoNodeId s) vs).
Proof.
  induction vs as [|v vs IH]; intros prev; [reflexivity|].
  cbn [videoEdgesFrom filter]. change (isSequenceFlow (flowEdge _ _ _)) with true.
  cbn iota. rewrite filter_app, flow_of_dependencyEdges. simpl app.
  cbn [map combine]. rewrite IH. reflexivity.
Qed.

Lemma prerequisite_of_videoEdgesFrom s : forall vs prev,
  filter isPrerequisite (videoEdgesFrom sequences s prev vs) =
  flat_map (fun v => dependencyEdges sequences (videoNodeId s v)
                       (dependenciesOf v)) vs.
Proof.
  induction vs as [|v vs IH]; intros prev; [reflexivity|].
  cbn [videoEdgesFrom filter flat_map].
  change (isPrerequisite (flowEdge _ _ _)) with false. cbn iota.
  rewrite filter_app, prerequisite_of_dependencyEdges, IH. reflexivity.
Qed.

Lemma filter_flat_map {A B} (p : B -> bool) (f : A -> list B) (l : list A) :
  filter p (flat_map f l) = flat_map (fun a => filter p (f a)) l.
Proof.
  induction l as [|a l IH]; simpl; [reflexivity|].
  now rewrite filter_app, IH.
Qed.

End EdgeKinds.

(** ** Shape of the node array *)

Lemma videoNodesFrom_length s y : forall vs i,
  length (videoNodesFrom s y i vs) = length vs.
Proof. induction vs as [|v vs IH]; intros i; simpl; [|rewrite IH]; reflexivity. Qed.

Lemma videoNodesFrom_nth s y : forall vs i0 i v,
  nth_error vs i = Some v ->
  nth_error (videoNodesFrom s y i0 vs) i = Some (videoNodeOf s v (i0 + i) y).
Proof.
  induction vs as [|w vs IH]; intros i0 [|i] v H; try discriminate.
  - injection H as ->. simpl. now rewrite Nat.add_0_r.
  - simpl. rewrite (IH (S i0) i v H). do 2 f_equal. lia.
Qed.

Lemma sequenceNodes_length s y :
  length (sequenceNodes s y) = S (length (sequence_videos s)).
Proof. unfold sequenceNodes. simpl. now rewrite videoNodesFrom_length. Qed.

Lemma allNodesFrom_length : forall seqs y,
  length (allNodesFrom y seqs) = (length seqs + totalVideos seqs)%nat.
Proof.
  induction seqs as [|s seqs IH]; intros y; [reflexivity|].
  cbn [allNodesFrom]. rewrite length_app, sequenceNodes_length, IH.
  unfold totalVideos. simpl. lia.
Qed.

Lemma videoNodesFrom_headers s y : forall vs i,
  filter isHeader (videoNodesFrom s y i vs) = [].
Proof. induction vs as [|v vs IH]; intros i; simpl; auto. Qed.

Lemma allNodesFrom_headers : forall seqs y,
  length (filter isHeader (allNodesFrom y seqs)) = length seqs.
Proof.
  induction seqs as [|s seqs IH]; intros y; [reflexivity|].
  cbn [allNodesFrom]. rewrite filter_app, length_app, IH.
  unfold sequenceNodes. cbn [filter]. change (isHeader (headerNode s y)) with true.
  cbn iota. rewrite videoNodesFrom_headers. reflexivity.
Qed.

Lemma headerIndex_cons s seqs k :
  headerIndex (s :: seqs) (S k) =
  (S (length (sequence_videos s)) + headerIndex seqs k)%nat.
Proof. unfold headerIndex, totalVideos. simpl. lia. Qed.

Lemma allNodesFrom_header_nth : forall seqs y k s,
  nth_error seqs k = Some s ->
  nth_error (allNodesFrom y seqs) (headerIndex seqs k) =
  Some (headerNode s (y + Z.of_nat k * sequenceSpacing)).
Proof.
  induction seqs as [|s0 seqs IH]; intros y [|k] s H; try discriminate.
  - injection H as ->. simpl. now rewrite Z.add_0_r.
  - rewrite headerIndex_cons. cbn [allNodesFrom].
    rewrite nth_error_app2 by (rewrite sequenceNodes_length; lia).
    rewrite sequenceNodes_length.
    replace (S (length (sequence_videos s0)) + headerIndex seqs k
             - S (length (sequence_videos s0)))%nat
      with (headerIndex seqs k) by lia.
    rewrite (IH _ k s H). do 2 f_equal. lia.
Qed.

Lemma allNodesFrom_video_nth : forall seqs y k s i v,
  nth_error seqs k = Some s ->
  nth_error (sequence_videos s) i = Some v ->
  nth_error (allNodesFrom y seqs) (headerIndex seqs k + 1 + i) =
  Some (videoNodeOf s v i (y + Z.of_nat k * sequenceSpacing)).
Proof.
  induction seqs as [|s0 seqs IH]; intros y [|k] s i v H Hv; try discriminate.
  - injection H as ->. cbn [allNodesFrom].
    assert (i < length (sequence_videos s))%nat
      by (apply nth_error_Some; congruence).
    rewrite nth_error_app1 by (rewrite sequenceNodes_length; unfold headerIndex; simpl; lia).
    unfold headerIndex, sequenceNodes. simpl.
    rewrite (videoNodesFrom_nth s y _ 0 i v Hv). now rewrite Z.add_0_r.
  - rewrite headerIndex_cons. cbn [allNodesFrom].
    rewrite nth_error_app2 by (rewrite sequenceNodes_length; lia).
    rewrite sequenceNodes_length.
    replace (S (length (sequence_videos s0)) + headerIndex seqs k + 1 + i
             - S (length (sequence_videos s0)))%nat
      with (headerIndex seqs k + 1 + i)%nat by lia.
    rewrite (IH _ k s i v H Hv). do 2 f_equal. lia.
Qed.

(** ** Injectivity of the naming scheme *)

Lemma hyphenFree_spec s :
  hyphenFree s = true <-> forall pre post, s <> (pre ++ "-" ++ post)%string.
Proof.
  induction s as [|c s IH]; simpl.
  - split; [|reflexivity]. intros _ [|? ?] post; discriminate.
  - rewrite andb_true_iff, negb_true_iff, Ascii.eqb_neq, IH. split.
    + intros [Hc Hs] [|d pre] post; simpl; intros E; injection E as E1 E2.
      * now apply Hc.
      * now apply (Hs pre post).
    + intros H. split.
      * intros ->. now apply (H EmptyString s).
      * intros pre post ->. now apply (H (String c pre) post).
Qed.

Lemma split_at_first_hyphen : forall a b x y,
  hyphenFree a = true -> hyphenFree b = true ->
  (a ++ "-" ++ x = b ++ "-" ++ y)%string -> a = b /\ x = y.
Proof.
  induction a as [|c a IH]; intros [|d b] x y Ha Hb; simpl in *; intros E.
  - injection E as ->. now split.
  - injection E as <- _. rewrite Ascii.eqb_refl in Hb. discriminate.
  - injection E as -> _. rewrite Ascii.eqb_refl in Ha. discriminate.
  - injection E as -> E.
    apply andb_true_iff in Ha as [_ Ha], Hb as [_ Hb].
    now destruct (IH b x y Ha Hb E) as [-> ->].
Qed.

Lemma append_inj_l : forall a x y, (a ++ x = a ++ y)%string -> x = y.
Proof.
  induction a as [|c a IH]; simpl; intros x y H; [exact H|].
  injection H as H. now apply IH.
Qed.

Lemma NoDup_map_injective {A B} (f : A -> B) (l : list A) :
  (forall x y, f x = f y -> x = y) -> NoDup l -> NoDup (map f l).
Proof.
  intros Hf. induction 1 as [|a l Hin Hnd IH]; simpl; constructor; [|exact IH].
  intros Hm. apply in_map_iff in Hm as [b [E Hb]].
  apply Hf in E. now subst.
Qed.

Lemma header_is_not_video s s' v :
  wellNamed s' -> headerNodeId s <> videoNodeId s' v.
Proof.
  intros [Hh Hne] E. unfold headerNodeId, videoNodeId in E.
  change ("sequence-" ++ sequence_id s)%string
    with ("sequence" ++ "-" ++ sequence_id s)%string in E.
  apply split_at_first_hyphen in E as [E _]; [| reflexivity | exact Hh].
  now apply Hne.
Qed.

Lemma nodeIdsOf_same_sequence s s' id :
  wellNamed s -> wellNamed s' ->
  In id (nodeIdsOf s) -> In id (nodeIdsOf s') ->
  sequence_id s = sequence_id s'.
Proof.
  intros W W' [<-|Hin] [E|Hin'].
  - now apply append_inj_l in E.
  - apply in_map_iff in Hin' as [v [E _]]. symmetry in E.
    now apply header_is_not_video in E.
  - apply in_map_iff in Hin as [v [Ev _]]. subst id.
    now apply header_is_not_video in E.
  - apply in_map_iff in Hin as [v [<- _]], Hin' as [v' [E _]].
    unfold videoNodeId in E. destruct W as [H _], W' as [H' _].
    symmetry. now apply (split_at_first_hyphen _ _ _ _ H' H) in E as [E _].
Qed.

Lemma nodeIdsOf_NoDup s :
  wellNamed s -> NoDup (map video_id (sequence_videos s)) ->
  NoDup (nodeIdsOf s).
Proof.
  intros W Hnd. unfold nodeIdsOf. constructor.
  - intros Hin. apply in_map_iff in Hin as [v [E _]]. symmetry in E.
    now apply header_is_not_video in E.
  - unfold videoNodeId.
    rewrite <- (map_map video_id (fun i => sequence_id s ++ "-" ++ i)%string).
    apply NoDup_map_injective; [|exact Hnd].
    intros x y E. apply append_inj_l in E. now injection E.
Qed.

Lemma node_ids_videoNodesFrom s y : forall vs i,
  node_ids (videoNodesFrom s y i vs) = map (videoNodeId s) vs.
Proof.
  induction vs as [|v vs IH]; intros i; simpl; [reflexivity|].
  f_equal. apply IH.
Qed.

Lemma node_ids_allNodesFrom : forall seqs y,
  node_ids (allNodesFrom y seqs) = flat_map nodeIdsOf seqs.
Proof.
  induction seqs as [|s seqs IH]; intros y; [reflexivity|].
  cbn [allNodesFrom flat_map]. unfold node_ids in *.
  rewrite map_app, IH. f_equal. unfold nodeIdsOf. simpl. f_equal.
  apply node_ids_videoNodesFrom.
Qed.

Lemma flat_map_nodeIdsOf_NoDup : forall seqs,
  NoDup (map sequence_id seqs) ->
  (forall s, In s seqs -> wellNamed s) ->
  (forall s, In s seqs -> NoDup (map video_id (sequence_videos s))) ->
  NoDup (flat_map nodeIdsOf seqs).
Proof.
  induction seqs as [|s seqs IH]; intros Hids Hw Hv; [constructor|].
  cbn [flat_map]. inversion Hids as [|? ? Hnotin Hids']; subst.
  apply NoDup_app.
  - apply nodeIdsOf_NoDup; [apply Hw | apply Hv]; now left.
  - apply IH; [exact Hids' | |]; intros s' Hs'; [apply Hw | apply Hv]; now right.
  - intros id Hin Hin'. apply in_flat_map in Hin' as [s' [Hs' Hin']].
    apply Hnotin. apply in_map_iff. exists s'. split; [|exact Hs'].
    symmetry. apply (nodeIdsOf_same_sequence s s' id); auto.
    + apply Hw. now left.
    + apply Hw. now right.
Qed.

(** ** Resolution of dependency identifiers *)

Lemma hasVideo_find sequences depId :
  hasVideo sequences depId ->
  exists v, find (hasId depId) (flat_map sequence_videos sequences) = Some v.
Proof.
  intros [s [v [Hs [Hv E]]]].
  destruct (find (hasId depId) (flat_map sequence_videos sequences)) as [w|] eqn:F.
  - now exists w.
  - exfalso. apply find_none with (x := v) in F.
    + unfold hasId in F. rewrite E, String.eqb_refl in F. discriminate.
    + apply in_flat_map. now exists s.
Qed.

Lemma find_hasVideo sequences depId v :
  find (hasId depId) (flat_map sequence_videos sequences) = Some v ->
  hasVideo sequences depId.
Proof.
  intros F. apply find_some in F as [Hin E].
  apply in_flat_map in Hin as [s [Hs Hv]].
  exists s, v. repeat split; auto. now apply String.eqb_eq.
Qed.

Lemma owningSequence_first pre s post depId :
  (forall s' v', In s' pre -> In v' (sequence_videos s') -> video_id v' <> depId) ->
  (exists v, In v (sequence_videos s) /\ video_id v = depId) ->
  owningSequence (pre ++ s :: post) depId = Some s.
Proof.
  intros Hpre [v [Hv E]]. unfold owningSequence.
  induction pre as [|p pre IH]; simpl.
  - replace (existsb (hasId depId) (sequence_videos s)) with true; [reflexivity|].
    symmetry. apply existsb_exists. exists v. split; [exact Hv|].
    unfold hasId. now apply String.eqb_eq.
  - destruct (existsb (hasId depId) (sequence_videos p)) eqn:Ex.
    + exfalso. apply existsb_exists in Ex as [w [Hw Ew]].
      apply (Hpre p w); [now left | exact Hw | now apply String.eqb_eq].
    + apply IH. intros s' v' Hs'. apply Hpre. now right.
Qed.

Lemma owningSequence_some sequences depId :
  hasVideo sequences depId ->
  exists s v, owningSequence sequences depId = Some s /\ In s sequences /\
              In v (sequence_videos s) /\ video_id v = depId.
Proof.
  intros [s0 [v0 [Hs0 [Hv0 E0]]]]. unfold owningSequence.
  destruct (find _ sequences) as [s|] eqn:F.
  - apply find_some in F as [Hs Ex]. apply existsb_exists in Ex as [v [Hv E]].
    exists s, v. repeat split; auto. now apply String.eqb_eq.
  - exfalso. apply find_none with (x := s0) in F; [|exact Hs0].
    assert (existsb (hasId depId) (sequence_videos s0) = true); [|congruence].
    apply existsb_exists. exists v0. split; [exact Hv0|].
    unfold hasId. now apply String.eqb_eq.
Qed.

Lemma sourceNodeId_resolved sequences depId :
  hasVideo sequences depId ->
  exists s v, owningSequence sequences depId = Some s /\ In s sequences /\
              In v (sequence_videos s) /\ video_id v = depId /\
              sourceNodeId sequences depId = Some (videoNodeId s v).
Proof.
  intros H. destruct (owningSequence_some _ _ H) as [s [v [Ho [Hs [Hv E]]]]].
  exists s, v. repeat split; auto.
  unfold sourceNodeId. destruct (hasVideo_find _ _ H) as [w ->].
  rewrite Ho. unfold videoNodeId. now rewrite E.
Qed.

Lemma sourceNodeId_unresolved sequences depId :
  ~ hasVideo sequences depId -> sourceNodeId sequences depId = None.
Proof.
  intros H. unfold sourceNodeId.
  destruct (find _ _) as [v|] eqn:F; [|reflexivity].
  exfalso. apply H. now apply find_hasVideo in F.
Qed.

(** ** The URL expression *)

Lemma afterLiteral_spec : forall p s rest,
  afterLiteral p s = Some rest <-> s = (p ++ rest)%string.
Proof.
  induction p as [|a p IH]; intros s rest; simpl.
  - split; [now intros [= ->] | now intros ->].
  - destruct s as [|b s]; [split; discriminate|].
    destruct (Ascii.eqb_spec a b) as [->|Hab].
    + rewrite IH. split; [now intros -> | now intros [= ->]].
    + split; [discriminate | intros [= E _]; now symmetry in E].
Qed.

Lemma takeClass_cons rest c r :
  takeClass rest = String c r ->
  exists post, rest = String c post /\ idChar c = true.
Proof.
  destruct rest as [|d post]; simpl; [discriminate|].
  destruct (idChar d) eqn:Hd; [|discriminate].
  intros [= -> _]. now exists post.
Qed.

Lemma takeClass_head c post :
  idChar c = true -> takeClass (String c post) = String c (takeClass post).
Proof. intros H. simpl. now rewrite H. Qed.

Lemma matchHere_some : forall alts s g,
  matchHere alts s = Some g ->
  g <> EmptyString /\
  exists p c post,
    In p alts /\ idChar c = true /\ s = (p ++ String c post)%string.
Proof.
  induction alts as [|p alts IH]; intros s g; simpl; [discriminate|].
  destruct (afterLiteral p s) as [rest|] eqn:A.
  - destruct (takeClass rest) as [|c r] eqn:T.
    + intros H. destruct (IH s g H) as [Hg [q [c [post [Hq H']]]]].
      split; [exact Hg|]. exists q, c, post. split; [now right | exact H'].
    + intros [= <-]. split; [discriminate|].
      apply takeClass_cons in T as [post [-> Hc]].
      apply afterLiteral_spec in A.
      exists p, c, post. split; [now left | now split].
  - intros H. destruct (IH s g H) as [Hg [q [c [post [Hq H']]]]].
    split; [exact Hg|]. exists q, c, post. split; [now right | exact H'].
Qed.

Lemma matchHere_none : forall alts s,
  matchHere alts s = None ->
  forall p c post, In p alts -> idChar c = true ->
                   s <> (p ++ String c post)%string.
Proof.
  induction alts as [|q alts IH]; intros s H p c post Hin Hc E; [destruct Hin|].
  simpl in H. destruct Hin as [->|Hin].
  - apply afterLiteral_spec in E. rewrite E, (takeClass_head _ _ Hc) in H.
    discriminate.
  - destruct (afterLiteral q s) as [rest|].
    + destruct (takeClass rest); [|discriminate]. now apply (IH s H p c post).
    + now apply (IH s H p c post).
Qed.

Lemma matchAnywhere_unfold s :
  matchAnywhere s =
  match matchHere alternatives s with
  | Some g => Some g
  | None => match s with
            | EmptyString => None
            | String _ r => matchAnywhere r
            end
  end.
Proof. destruct s; reflexivity. Qed.

Lemma matchAnywhere_some : forall s g,
  matchAnywhere s = Some g -> g <> EmptyString /\ containsLiteralAndId s.
Proof.
  induction s as [|a s IH]; intros g; rewrite matchAnywhere_unfold.
  - discriminate.
  - destruct (matchHere alternatives (String a s)) as [h|] eqn:M.
    + intros [= <-]. apply matchHere_some in M as [Hg [p [c [post [Hp [Hc E]]]]]].
      split; [exact Hg|]. exists p, EmptyString, c, post. now repeat split.
    + intros H. destruct (IH g H) as [Hg [p [pre [c [post [Hp [Hc E]]]]]]].
      split; [exact Hg|]. exists p, (String a pre), c, post.
      repeat split; auto. simpl. now rewrite E.
Qed.

Lemma matchAnywhere_none : forall s,
  matchAnywhere s = None -> ~ containsLiteralAndId s.
Proof.
  induction s as [|a s IH]; rewrite matchAnywhere_unfold.
  - intros _ [p [pre [c [post [_ [_ E]]]]]].
    destruct pre; [destruct p|]; discriminate.
  - destruct (matchHere alternatives (String a s)) as [h|] eqn:M; [discriminate|].
    intros H [p [pre [c [post [Hp [Hc E]]]]]].
    destruct pre as [|b pre]; simpl in E.
    + now apply (matchHere_none _ _ M p c post).
    + injection E as _ E. apply (IH H). now exists p, pre, c, post.
Qed.

Lemma containsLiteralAndId_containsLiteral url :
  containsLiteralAndId url -> containsLiteral url.
Proof.
  intros [p [pre [c [post [Hp [_ E]]]]]]. now exists p, pre, (String c post).
Qed.

Lemma videoNodesFrom_videos s y : forall vs i,
  filter isVideoNode (videoNodesFrom s y i vs) = videoNodesFrom s y i vs.
Proof.
  induction vs as [|v vs IH]; intros i; simpl; [reflexivity|]. now rewrite IH.
Qed.

Lemma allNodesFrom_videos : forall seqs y,
  length (filter isVideoNode (allNodesFrom y seqs)) = totalVideos seqs.
Proof.
  induction seqs as [|s seqs IH]; intros y; [reflexivity|].
  cbn [allNodesFrom]. rewrite filter_app, length_app, IH.
  unfold sequenceNodes. cbn [filter].
  change (isVideoNode (headerNode s y)) with false. cbn iota.
  rewrite videoNodesFrom_videos, videoNodesFrom_length. reflexivity.
Qed.

Lemma literalAnywhere_unfold s :
  literalAnywhere s =
  existsb (fun p => match afterLiteral p s with
                    | Some _ => true
                    | None => false
                    end) alternatives
  || match s with
     | EmptyString => false
     | String _ r => literalAnywhere r
     end.
Proof. destruct s; reflexivity. Qed.

Lemma containsLiteral_literalAnywhere url :
  containsLiteral url -> literalAnywhere url = true.
Proof.
  intros [p [pre [post [Hp ->]]]].
  induction pre as [|a pre IH]; rewrite literalAnywhere_unfold;
    apply orb_true_iff.
  - left. apply existsb_exists. exists p. split; [exact Hp|].
    simpl append.
    now rewrite (proj2 (afterLiteral_spec p (p ++ post)%string post) eq_refl).
  - right. exact IH.
Qed.

(** * The claims *)

(** C1.  For every sequence, the builder emits exactly as many sequence-flow
    edges as the sequence has videos: the edge list of the diagram is the
    concatenation of what the callback appends for each sequence, and the
    sequence-flow edges appended for a sequence go from the header node to
    the first video's node and from each video's node to the next one's. *)
Theorem sequence_flow_edges_per_sequence : forall sequences,
  exists ns es,
    buildDiagram sequences = Some (ns, es) /\
    es = flat_map (sequenceEmitsEdges sequences) sequences /\
    forall s,
      (forall i st, exists st',
          sequenceCallback sequences s i st = Some st' /\
          edges st' = edges st ++ sequenceEmitsEdges sequences s) /\
      length (filter isSequenceFlow (sequenceEmitsEdges sequences s)) =
        length (sequence_videos s) /\
      map endpoints (filter isSequenceFlow (sequenceEmitsEdges sequences s)) =
        combine (headerNodeId s :: map (videoNodeId s) (sequence_videos s))
                (map (videoNodeId s) (sequence_videos s)).
Proof.
  intros sequences. rewrite buildDiagram_eq. eexists _, _.
  split; [reflexivity|]. split.
  - apply flat_map_ext. intros s. now rewrite sequenceEmitsEdges_eq.
  - intros s. rewrite sequenceEmitsEdges_eq.
    assert (E := flow_of_videoEdgesFrom sequences s (sequence_videos s)
                   (headerNodeId s)).
    fold (sequenceEdges sequences s) in E. repeat split.
    + intros i st. rewrite sequenceCallback_eq. eexists. split; reflexivity.
    + rewrite <- (length_map endpoints), E, length_combine.
      cbn [length]. rewrite length_map. lia.
    + exact E.
Qed.

(** C10.  The number of nodes is the number of sequences plus the number of
    videos of all sequences: one header node per sequence and one video
    node per video, whatever the dependency lists and URLs are. *)
Theorem node_count : forall sequences,
  exists ns es,
    buildDiagram sequences = Some (ns, es) /\
    length ns = (length sequences + totalVideos sequences)%nat /\
    length (filter isHeader ns) = length sequences /\
    length (filter isVideoNode ns) = totalVideos sequences.
Proof.
  intros sequences. rewrite buildDiagram_eq. eexists _, _.
  split; [reflexivity|]. split; [apply allNodesFrom_length|].
  split; [apply allNodesFrom_headers | apply allNodesFrom_videos].
Qed.

(** C5.  Positions follow the grid: the header node of the [k]-th sequence
    (counting from 0) is at x = 0 and y = k * sequenceSpacing, and the node
    of its [i]-th video (counting from 0) is at x = (i + 1) * videoSpacing
    and at the same y. *)
Theorem grid_positions : forall sequences,
  exists ns es,
    buildDiagram sequences = Some (ns, es) /\
    forall k s,
      nth_error sequences k = Some s ->
      (exists h,
          nth_error ns (headerIndex sequences k) = Some h /\
          node_id h = headerNodeId s /\
          node_position h = mkPosition 0 (Z.of_nat k * sequenceSpacing)) /\
      (forall i v,
          nth_error (sequence_videos s) i = Some v ->
          exists n,
            nth_error ns (headerIndex sequences k + 1 + i) = Some n /\
            node_id n = videoNodeId s v /\
            node_position n =
              mkPosition (Z.of_nat (i + 1) * videoSpacing)
                         (Z.of_nat k * sequenceSpacing)).
Proof.
  intros sequences. rewrite buildDiagram_eq. eexists _, _.
  split; [reflexivity|]. intros k s Hk. split.
  - eexists. split; [apply (allNodesFrom_header_nth _ 0 k s Hk)|].
    split; reflexivity.
  - intros i v Hv. eexists.
    split; [apply (allNodesFrom_video_nth _ 0 k s i v Hk Hv)|].
    split; reflexivity.
Qed.

Lemma grid_positions_witness :
  exists ns es,
    buildDiagram example_sequences = Some (ns, es) /\
    (exists h, nth_error ns 3 = Some h /\
               node_position h = mkPosition 0 600) /\
    (exists n, nth_error ns 4 = Some n /\
               node_position n = mkPosition 420 600).
Proof.
  destruct (grid_positions example_sequences) as [ns [es [Hb H]]].
  exists ns, es. split; [exact Hb|].
  destruct (H 1%nat sequence_B eq_refl) as [[h [Hh [_ Hp]]] Hv].
  split; [exists h; split; [exact Hh | exact Hp]|].
  destruct (Hv 0%nat video_b1 eq_refl) as [n [Hn [_ Hq]]].
  exists n. split; [exact Hn | exact Hq].
Defined.

(** C3, as stated, fails: with video identifiers unique within their
    sequence, a sequence named "sequence" with a video named "sequence"
    gives the header node and the video node the same identifier. *)
Lemma node_ids_clash :
  (forall s, In s clash_sequences ->
             NoDup (map video_id (sequence_videos s))) /\
  exists ns es,
    buildDiagram clash_sequences = Some (ns, es) /\
    node_ids ns = ["sequence-sequence"; "sequence-sequence"] /\
    ~ NoDup (node_ids ns).
Proof.
  split.
  - intros s [<-|[]]. simpl. repeat constructor. intros [].
  - eexists _, _. split; [reflexivity|]. split; [reflexivity|].
    simpl. intros H. inversion H as [|? ? Hin _]. apply Hin. now left.
Qed.

(** The other two conditions of the amended claim are needed as well. *)
Example node_ids_clash_hyphen :
  exists ns es,
    buildDiagram hyphen_sequences = Some (ns, es) /\
    node_ids ns = ["sequence-a"; "a-b-c"; "sequence-a-b"; "a-b-c"].
Proof. eexists _, _. split; reflexivity. Qed.

Example node_ids_clash_twins :
  exists ns es,
    buildDiagram twin_sequences = Some (ns, es) /\
    node_ids ns = ["sequence-a"; "sequence-a"].
Proof. eexists _, _. split; reflexivity. Qed.

(** C3, amended.  When sequence identifiers are pairwise distinct, contain
    no hyphen and are not the word "sequence", and video identifiers are
    unique within their sequence, the node identifiers of the diagram are
    pairwise distinct. *)
Theorem node_ids_unique : forall sequences,
  NoDup (map sequence_id sequences) ->
  (forall s, In s sequences -> wellNamed s) ->
  (forall s, In s sequences -> NoDup (map video_id (sequence_videos s))) ->
  exists ns es,
    buildDiagram sequences = Some (ns, es) /\ NoDup (node_ids ns).
Proof.
  intros sequences Hids Hw Hv. rewrite buildDiagram_eq. eexists _, _.
  split; [reflexivity|]. rewrite node_ids_allNodesFrom.
  now apply flat_map_nodeIdsOf_NoDup.
Qed.

Lemma node_ids_unique_witness :
  exists ns es,
    buildDiagram example_sequences = Some (ns, es) /\ NoDup (node_ids ns).
Proof.
  apply (node_ids_unique example_sequences).
  - simpl. repeat constructor; simpl; intuition discriminate.
  - intros s [<-|[<-|[]]]; split; simpl; try reflexivity; discriminate.
  - intros s [<-|[<-|[]]]; simpl; repeat constructor; simpl;
      intuition discriminate.
Defined.

(** C4, as stated, fails on the names of the header nodes: no node of the
    example is called "seq-A" (or "seq-B"), so the node set is not the one
    of the claim. *)
Lemma example_header_names :
  ~ exists ns es,
      buildDiagram example_sequences = Some (ns, es) /\
      forall id, In id (node_ids ns) <->
                 In id ["seq-A"; "A-a1"; "A-a2"; "seq-B"; "B-b1"].
Proof.
  intros [ns [es [H Hset]]]. rewrite buildDiagram_eq in H.
  injection H as <- <-.
  assert (Hin : In "seq-A" (node_ids (allNodesFrom 0 example_sequences)))
    by (apply Hset; now left).
  simpl in Hin. repeat (destruct Hin as [Hin|Hin]; [discriminate|]).
  exact Hin.
Qed.

(** C4, amended.  On sequence A with videos a1 then a2 and sequence B with
    the video b1 that depends on a2, the nodes are sequence-A, A-a1, A-a2,
    sequence-B and B-b1, and the edges are sequence-A -> A-a1,
    A-a1 -> A-a2, sequence-B -> B-b1 and A-a2 -> B-b1, the last one being
    the only prerequisite edge. *)
Theorem example_diagram :
  exists ns es,
    buildDiagram example_sequences = Some (ns, es) /\
    node_ids ns = ["sequence-A"; "A-a1"; "A-a2"; "sequence-B"; "B-b1"] /\
    map endpoints es =
      [("sequence-A", "A-a1"); ("A-a1", "A-a2"); ("sequence-B", "B-b1");
       ("A-a2", "B-b1")] /\
    map endpoints (filter isSequenceFlow es) =
      [("sequence-A", "A-a1"); ("A-a1", "A-a2"); ("sequence-B", "B-b1")] /\
    filter isPrerequisite es = [prerequisiteEdge "A-a2" "B-b1"].
Proof. eexists _, _. repeat split; reflexivity. Qed.

(** C7, as stated, fails: a URL can hold one of the three literals and
    still give no identifier, when no identifier character follows it. *)
Lemma literal_without_identifier :
  containsLiteral "https://youtu.be/" /\
  getYouTubeVideoId "https://youtu.be/" = None /\
  containsLiteral "https://www.youtube.com/watch?v=&t=10" /\
  getYouTubeVideoId "https://www.youtube.com/watch?v=&t=10" = None.
Proof.
  split; [|split; [reflexivity|split; [|reflexivity]]].
  - exists "youtu.be/", "https://", "". split; [simpl; auto | reflexivity].
  - exists "youtube.com/watch?v=", "https://www.", "&t=10".
    split; [simpl; auto | reflexivity].
Qed.

(** C7, amended.  The recognizer returns an identifier exactly when the URL
    holds one of the three literals (youtube.com/watch?v=, youtu.be/,
    youtube.com/embed/) immediately followed by at least one character
    other than [&], newline, [?] and [#]; the identifier is never empty.
    For a URL that holds none of the literals it returns nothing.  The
    embedded player is rendered exactly when an identifier is returned,
    and nothing throws. *)
Theorem url_recognizer : forall url,
  ((exists id, getYouTubeVideoId url = Some id) <->
   containsLiteralAndId url) /\
  (forall id, getYouTubeVideoId url = Some id -> id <> EmptyString) /\
  (~ containsLiteral url -> getYouTubeVideoId url = None) /\
  (getYouTubeVideoId url = None <-> videoEmbedSrc url = None).
Proof.
  intros url. unfold videoEmbedSrc, getYouTubeVideoId.
  destruct (matchAnywhere url) as [g|] eqn:M.
  - destruct (matchAnywhere_some _ _ M) as [Hg Hc]. repeat split.
    + intros _. exact Hc.
    + intros _. now exists g.
    + now intros id [= <-].
    + intros H. exfalso. apply H.
      now apply containsLiteralAndId_containsLiteral.
    + discriminate.
    + destruct g; [now contradiction Hg | discriminate].
  - assert (Hn := matchAnywhere_none _ M). repeat split; try discriminate.
    + now intros [id [=]].
    + intros H. now contradiction Hn.
Qed.

Lemma url_recognizer_witness :
  getYouTubeVideoId "https://vimeo.com/76979871" = None /\
  videoEmbedSrc "https://vimeo.com/76979871" = None /\
  exists id, getYouTubeVideoId "https://youtu.be/abc?t=1" = Some id.
Proof.
  destruct (url_recognizer "https://vimeo.com/76979871") as [_ [_ [Hnone Hembed]]].
  destruct (url_recognizer "https://youtu.be/abc?t=1") as [[_ Hsome] _].
  assert (N : getYouTubeVideoId "https://vimeo.com/76979871" = None).
  { apply Hnone. intros H. apply containsLiteral_literalAnywhere in H.
    discriminate H. }
  split; [exact N|]. split; [now apply Hembed|].
  apply Hsome. exists "youtu.be/", "https://", "a"%char, "bc?t=1".
  split; [simpl; auto | split; reflexivity].
Defined.

(** * Further properties of the builder *)

Lemma resolves_hasVideo sequences depId :
  resolves sequences depId = true <-> hasVideo sequences depId.
Proof.
  unfold resolves, hasVideo. rewrite existsb_exists. split.
  - intros [s [Hs Ex]]. apply existsb_exists in Ex as [v [Hv E]].
    exists s, v. repeat split; auto. now apply String.eqb_eq.
  - intros [s [v [Hs [Hv E]]]]. exists s. split; [exact Hs|].
    apply existsb_exists. exists v. split; [exact Hv|].
    unfold hasId. now apply String.eqb_eq.
Qed.

Lemma sourceNodeId_resolves sequences depId :
  resolves sequences depId = true ->
  exists s v, In s sequences /\ In v (sequence_videos s) /\
              sourceNodeId sequences depId = Some (videoNodeId s v).
Proof.
  intros H. apply resolves_hasVideo in H.
  destruct (sourceNodeId_resolved _ _ H) as [s [v [_ [Hs [Hv [_ E]]]]]].
  now exists s, v.
Qed.

Lemma sourceNodeId_not_resolves sequences depId :
  resolves sequences depId = false -> sourceNodeId sequences depId = None.
Proof.
  intros H. apply sourceNodeId_unresolved. intros Hv.
  apply resolves_hasVideo in Hv. congruence.
Qed.

Lemma videoNodeId_in_videoNodeIds sequences s v :
  In s sequences -> In v (sequence_videos s) ->
  In (videoNodeId s v) (videoNodeIds sequences).
Proof.
  intros Hs Hv. apply in_flat_map. exists s. split; [exact Hs|].
  now apply in_map.
Qed.

Lemma videoNodeIds_in_nodeIds sequences id :
  In id (videoNodeIds sequences) -> In id (flat_map nodeIdsOf sequences).
Proof.
  intros H. apply in_flat_map in H as [s [Hs H]].
  apply in_flat_map. exists s. split; [exact Hs | now right].
Qed.

Lemma node_ids_video_nodes : forall seqs y,
  node_ids (filter isVideoNode (allNodesFrom y seqs)) = videoNodeIds seqs.
Proof.
  induction seqs as [|s seqs IH]; intros y; [reflexivity|].
  cbn [allNodesFrom]. unfold videoNodeIds, node_ids in *. cbn [flat_map].
  rewrite filter_app, map_app, IH. f_equal.
  unfold sequenceNodes. cbn [filter].
  change (isVideoNode (headerNode s y)) with false. cbn iota.
  rewrite videoNodesFrom_videos. apply node_ids_videoNodesFrom.
Qed.

Lemma dependencyEdges_endpoints sequences nodeId deps e :
  In e (dependencyEdges sequences nodeId deps) ->
  In (edge_source e) (videoNodeIds sequences) /\ edge_target e = nodeId.
Proof.
  unfold dependencyEdges. intros H. apply in_flat_map in H as [d [_ H]].
  destruct (resolves sequences d) eqn:R.
  - destruct (sourceNodeId_resolves _ _ R) as [s [v [Hs [Hv E]]]].
    rewrite E in H. destruct H as [<-|[]]. split; [|reflexivity].
    now apply videoNodeId_in_videoNodeIds.
  - rewrite (sourceNodeId_not_resolves _ _ R) in H. destruct H.
Qed.

Lemma videoEdgesFrom_endpoints sequences s : forall vs prev e,
  In s sequences -> incl vs (sequence_videos s) ->
  In prev (flat_map nodeIdsOf sequences) ->
  In e (videoEdgesFrom sequences s prev vs) ->
  In (edge_source e) (flat_map nodeIdsOf sequences) /\
  In (edge_target e) (videoNodeIds sequences) /\
  (isPrerequisite e = true -> In (edge_source e) (videoNodeIds sequences)).
Proof.
  induction vs as [|v vs IH]; intros prev e Hs Hincl Hprev Hin; [destruct Hin|].
  assert (Hv : In v (sequence_videos s)) by (apply Hincl; now left).
  assert (Hid := videoNodeId_in_videoNodeIds sequences s v Hs Hv).
  cbn [videoEdgesFrom] in Hin. destruct Hin as [<-|Hin].
  - split; [exact Hprev|]. split; [exact Hid | discriminate].
  - apply in_app_or in Hin as [Hin|Hin].
    + apply dependencyEdges_endpoints in Hin as [Hsrc ->].
      split; [now apply videoNodeIds_in_nodeIds|]. now split.
    + apply (IH (videoNodeId s v) e Hs); auto.
      * intros w Hw. apply Hincl. now right.
      * now apply videoNodeIds_in_nodeIds.
Qed.

(** X1.  No edge dangles: the source of every edge of the diagram is the
    identifier of one of its nodes, and the target of every edge is the
    identifier of one of its video nodes; a prerequisite edge also leaves
    from a video node. *)
Theorem edges_join_nodes : forall sequences,
  exists ns es,
    buildDiagram sequences = Some (ns, es) /\
    forall e, In e es ->
      In (edge_source e) (node_ids ns) /\
      In (edge_target e) (node_ids (filter isVideoNode ns)) /\
      (isPrerequisite e = true ->
       In (edge_source e) (node_ids (filter isVideoNode ns))).
Proof.
  intros sequences. rewrite buildDiagram_eq. eexists _, _.
  split; [reflexivity|]. intros e He.
  rewrite node_ids_allNodesFrom, node_ids_video_nodes.
  apply in_flat_map in He as [s [Hs He]]. unfold sequenceEdges in He.
  apply (videoEdgesFrom_endpoints sequences s _ _ e Hs) in He; auto.
  - apply incl_refl.
  - apply in_flat_map. exists s. split; [exact Hs | now left].
Qed.

Lemma edges_join_nodes_witness :
  exists ns es,
    buildDiagram example_sequences = Some (ns, es) /\
    In "A-a2" (node_ids ns) /\
    In "B-b1" (node_ids (filter isVideoNode ns)).
Proof.
  destruct (edges_join_nodes example_sequences) as [ns [es [Hb H]]].
  exists ns, es. split; [exact Hb|].
  destruct (H (prerequisiteEdge "A-a2" "B-b1")) as [Hs [Ht _]].
  - assert (E := Hb). vm_compute in E. injection E as _ <-.
    do 3 right. now left.
  - split; [exact Hs | exact Ht].
Defined.

Lemma map_snd_combine_shift {A} : forall (l : list A) (a : A),
  map snd (combine (a :: l) l) = l.
Proof.
  induction l as [|b l IH]; intros a; [reflexivity|].
  cbn [combine map snd]. f_equal. apply IH.
Qed.

Lemma flow_targets sequences : forall seqs,
  map edge_target
    (flat_map (fun s => filter isSequenceFlow (sequenceEdges sequences s)) seqs) =
  videoNodeIds seqs.
Proof.
  induction seqs as [|s seqs IH]; [reflexivity|].
  unfold videoNodeIds in *. cbn [flat_map]. rewrite map_app, IH. f_equal.
  assert (E := flow_of_videoEdgesFrom sequences s (sequence_videos s)
                 (headerNodeId s)).
  apply (f_equal (map snd)) in E.
  rewrite map_map, map_snd_combine_shift in E. exact E.
Qed.

Lemma dependencyEdges_length sequences nodeId deps :
  length (dependencyEdges sequences nodeId deps) =
  length (filter (resolves sequences) deps).
Proof.
  induction deps as [|d deps IH]; [reflexivity|].
  unfold dependencyEdges in *. cbn [flat_map filter].
  rewrite length_app, IH. destruct (resolves sequences d) eqn:R.
  - destruct (sourceNodeId_resolves _ _ R) as [s [v [_ [_ ->]]]]. reflexivity.
  - now rewrite (sourceNodeId_not_resolves _ _ R).
Qed.

Lemma videoEdgesFrom_length sequences s : forall vs prev,
  length (videoEdgesFrom sequences s prev vs) =
  (length vs +
   length (filter (resolves sequences) (flat_map dependenciesOf vs)))%nat.
Proof.
  induction vs as [|v vs IH]; intros prev; [reflexivity|].
  cbn [videoEdgesFrom flat_map length].
  rewrite length_app, dependencyEdges_length, IH, filter_app, length_app. lia.
Qed.

Lemma allEdges_length sequences : forall seqs,
  length (flat_map (sequenceEdges sequences) seqs) =
  (totalVideos seqs +
   length (filter (resolves sequences) (allDependencyEntries seqs)))%nat.
Proof.
  induction seqs as [|s seqs IH]; [reflexivity|].
  unfold totalVideos, allDependencyEntries in *. cbn [flat_map map list_sum].
  rewrite length_app, IH, filter_app, length_app.
  unfold sequenceEdges. rewrite videoEdgesFrom_length.
  unfold list_sum. cbn [fold_right]. lia.
Qed.

Lemma dependencyEdges_kind sequences nodeId deps e :
  In e (dependencyEdges sequences nodeId deps) ->
  isPrerequisite e = true /\ isSequenceFlow e = false /\
  edge_label e <> None /\
  edge_id e = (edge_source e ++ "-" ++ edge_target e ++ "-dependency")%string.
Proof.
  unfold dependencyEdges. intros H. apply in_flat_map in H as [d [_ H]].
  destruct (sourceNodeId sequences d); [|destruct H].
  destruct H as [<-|[]]. repeat split. discriminate.
Qed.

Lemma videoEdgesFrom_kind sequences s : forall vs prev e,
  In e (videoEdgesFrom sequences s prev vs) ->
  (isSequenceFlow e = true /\ isPrerequisite e = false /\
   edge_label e = None /\
   edge_id e = (edge_source e ++ "-" ++ edge_target e)%string) \/
  (isPrerequisite e = true /\ isSequenceFlow e = false /\
   edge_label e <> None /\
   edge_id e =
     (edge_source e ++ "-" ++ edge_target e ++ "-dependency")%string).
Proof.
  induction vs as [|v vs IH]; intros prev e Hin; [destruct Hin|].
  cbn [videoEdgesFrom] in Hin. destruct Hin as [<-|Hin].
  - left. repeat split.
  - apply in_app_or in Hin as [Hin|Hin].
    + right. now apply dependencyEdges_kind in Hin.
    + now apply IH in Hin.
Qed.

(** X3.  The diagram has one edge per video plus one edge per dependency
    entry that names a video of the data set.  Every edge is of exactly
    one kind: a sequence-flow edge, which carries no label and is named
    source-target, or a prerequisite edge, which carries a label and is
    named source-target-dependency. *)
Theorem edge_count_and_kinds : forall sequences,
  exists ns es,
    buildDiagram sequences = Some (ns, es) /\
    length es =
      (totalVideos sequences +
       length (filter (resolves sequences)
                 (allDependencyEntries sequences)))%nat /\
    forall e, In e es ->
      (isSequenceFlow e = true /\ isPrerequisite e = false /\
       edge_label e = None /\
       edge_id e = (edge_source e ++ "-" ++ edge_target e)%string) \/
      (isPrerequisite e = true /\ isSequenceFlow e = false /\
       edge_label e <> None /\
       edge_id e =
         (edge_source e ++ "-" ++ edge_target e ++ "-dependency")%string).
Proof.
  intros sequences. rewrite buildDiagram_eq. eexists _, _.
  split; [reflexivity|]. split; [apply allEdges_length|].
  intros e He. apply in_flat_map in He as [s [_ He]].
  now apply videoEdgesFrom_kind in He.
Qed.

Lemma edge_count_and_kinds_witness :
  exists ns es,
    buildDiagram shared_sequences = Some (ns, es) /\
    length es = 4%nat /\
    isPrerequisite (prerequisiteEdge "Q-x" "P-p") = true.
Proof.
  destruct (edge_count_and_kinds shared_sequences) as [ns [es [Hb [Hl H]]]].
  exists ns, es. split; [exact Hb|]. split; [exact Hl|].
  destruct (H (prerequisiteEdge "Q-x" "P-p")) as [[F _]|[P _]].
  - assert (E := Hb). vm_compute in E. injection E as _ <-.
    right. now left.
  - discriminate F.
  - exact P.
Defined.

(** ** Layout *)

Lemma StronglySorted_app {A} (R : A -> A -> Prop) : forall l1 l2,
  StronglySorted R l1 -> StronglySorted R l2 ->
  (forall a b, In a l1 -> In b l2 -> R a b) ->
  StronglySorted R (l1 ++ l2).
Proof.
  induction l1 as [|x l1 IH]; intros l2 H1 H2 H; [exact H2|].
  apply StronglySorted_inv in H1 as [H1 Hx]. simpl. constructor.
  - apply IH; auto. intros a b Ha. apply H. now right.
  - apply Forall_app. split; [exact Hx|].
    apply Forall_forall. intros b Hb. apply H; [now left | exact Hb].
Qed.

Lemma rowMajor_irrefl p : ~ rowMajor p p.
Proof. unfold rowMajor. lia. Qed.

Lemma StronglySorted_NoDup {A} (R : A -> A -> Prop) l :
  (forall a, ~ R a a) -> StronglySorted R l -> NoDup l.
Proof.
  intros Hirr. induction 1 as [|a l Hs IH Hall]; constructor; [|exact IH].
  intros Hin. rewrite Forall_forall in Hall. now apply (Hirr a), Hall.
Qed.

Lemma videoNodesFrom_positions s y : forall vs i p,
  In p (map node_position (videoNodesFrom s y i vs)) ->
  pos_y p = y /\ (Z.of_nat (i + 1) * videoSpacing <= pos_x p)%Z.
Proof.
  induction vs as [|v vs IH]; intros i p Hin; [destruct Hin|].
  destruct Hin as [<-|Hin].
  - simpl. split; [reflexivity | lia].
  - apply IH in Hin as [Hy Hx]. split; [exact Hy|].
    unfold videoSpacing in *. lia.
Qed.

Lemma videoNodesFrom_sorted s y : forall vs i,
  StronglySorted rowMajor (map node_position (videoNodesFrom s y i vs)).
Proof.
  induction vs as [|v vs IH]; intros i; [constructor|].
  cbn [videoNodesFrom map]. constructor; [apply IH|].
  apply Forall_forall. intros p Hp.
  apply videoNodesFrom_positions in Hp as [Hy Hx].
  right. simpl. split; [now symmetry|]. unfold videoSpacing in *. lia.
Qed.

Lemma sequenceNodes_positions s y p :
  In p (map node_position (sequenceNodes s y)) ->
  pos_y p = y /\ (0 <= pos_x p)%Z.
Proof.
  intros [<-|Hin]; [split; simpl; [reflexivity | lia]|].
  apply videoNodesFrom_positions in Hin as [Hy Hx]. split; [exact Hy|].
  unfold videoSpacing in Hx. lia.
Qed.

Lemma sequenceNodes_sorted s y :
  StronglySorted rowMajor (map node_position (sequenceNodes s y)).
Proof.
  unfold sequenceNodes. cbn [map]. constructor; [apply videoNodesFrom_sorted|].
  apply Forall_forall. intros p Hp.
  apply videoNodesFrom_positions in Hp as [Hy Hx].
  right. simpl. split; [now symmetry|]. unfold videoSpacing in Hx. lia.
Qed.

Lemma allNodesFrom_positions : forall seqs y p,
  In p (map node_position (allNodesFrom y seqs)) ->
  (y <= pos_y p)%Z /\ (0 <= pos_x p)%Z.
Proof.
  induction seqs as [|s seqs IH]; intros y p Hin; [destruct Hin|].
  cbn [allNodesFrom] in Hin. rewrite map_app in Hin.
  apply in_app_or in Hin as [Hin|Hin].
  - apply sequenceNodes_positions in Hin. lia.
  - apply IH in Hin. unfold sequenceSpacing in Hin. lia.
Qed.

Lemma allNodesFrom_sorted : forall seqs y,
  StronglySorted rowMajor (map node_position (allNodesFrom y seqs)).
Proof.
  induction seqs as [|s seqs IH]; intros y; [constructor|].
  cbn [allNodesFrom]. rewrite map_app. apply StronglySorted_app.
  - apply sequenceNodes_sorted.
  - apply IH.
  - intros p q Hp Hq. apply sequenceNodes_positions in Hp as [Hp _].
    apply allNodesFrom_positions in Hq as [Hq _].
    left. unfold sequenceSpacing in Hq. lia.
Qed.

(** X4.  The node array is in reading order of the canvas: each node lies
    strictly after all the nodes before it, row by row from the top and
    from left to right within a row.  So no two nodes share a position,
    and no coordinate is negative. *)
Theorem nodes_in_reading_order : forall sequences,
  exists ns es,
    buildDiagram sequences = Some (ns, es) /\
    StronglySorted rowMajor (map node_position ns) /\
    NoDup (map node_position ns) /\
    Forall (fun p => (0 <= pos_x p)%Z /\ (0 <= pos_y p)%Z)
           (map node_position ns).
Proof.
  intros sequences. rewrite buildDiagram_eq. eexists _, _.
  split; [reflexivity|]. split; [apply allNodesFrom_sorted|]. split.
  - apply (StronglySorted_NoDup rowMajor); [apply rowMajor_irrefl|].
    apply allNodesFrom_sorted.
  - apply Forall_forall. intros p Hp.
    apply allNodesFrom_positions in Hp. lia.
Qed.

(** ** Growing the data file *)

Lemma moveDown_videoNodesFrom s y dy : forall vs i,
  videoNodesFrom s (y + dy) i vs = map (moveDown dy) (videoNodesFrom s y i vs).
Proof.
  induction vs as [|v vs IH]; intros i; [reflexivity|].
  cbn [videoNodesFrom map]. now rewrite IH.
Qed.

Lemma moveDown_allNodesFrom dy : forall seqs y,
  allNodesFrom (y + dy) seqs = map (moveDown dy) (allNodesFrom y seqs).
Proof.
  induction seqs as [|s seqs IH]; intros y; [reflexivity|].
  cbn [allNodesFrom]. rewrite map_app, <- IH. f_equal.
  - unfold sequenceNodes. cbn [map]. now rewrite moveDown_videoNodesFrom.
  - f_equal. lia.
Qed.

Lemma allNodesFrom_app : forall l1 l2 y,
  allNodesFrom y (l1 ++ l2) =
  allNodesFrom y l1 ++
  allNodesFrom (y + Z.of_nat (length l1) * sequenceSpacing) l2.
Proof.
  induction l1 as [|s l1 IH]; intros l2 y.
  - simpl. now rewrite Z.add_0_r.
  - cbn [app allNodesFrom length]. rewrite IH, <- app_assoc.
    do 3 f_equal. lia.
Qed.

Lemma flow_independent_of_data seqsA seqsB s : forall vs prev,
  filter isSequenceFlow (videoEdgesFrom seqsA s prev vs) =
  filter isSequenceFlow (videoEdgesFrom seqsB s prev vs).
Proof.
  induction vs as [|v vs IH]; intros prev; [reflexivity|].
  cbn [videoEdgesFrom filter]. rewrite !filter_app, !flow_of_dependencyEdges.
  now rewrite IH.
Qed.

(** X5.  Joining two data files: the nodes of the joined file are the
    nodes of the first file followed by the nodes of the second file moved
    down by one spacing per sequence of the first, and its sequence-flow
    edges are those of the first file followed by those of the second. *)
Theorem diagram_of_joined_files : forall sequences1 sequences2,
  exists ns1 es1 ns2 es2 ns es,
    buildDiagram sequences1 = Some (ns1, es1) /\
    buildDiagram sequences2 = Some (ns2, es2) /\
    buildDiagram (sequences1 ++ sequences2) = Some (ns, es) /\
    ns = ns1 ++
         map (moveDown (Z.of_nat (length sequences1) * sequenceSpacing)) ns2 /\
    filter isSequenceFlow es =
    filter isSequenceFlow es1 ++ filter isSequenceFlow es2.
Proof.
  intros l1 l2. rewrite !buildDiagram_eq. eexists _, _, _, _, _, _.
  do 3 (split; [reflexivity|]). split.
  - rewrite allNodesFrom_app. f_equal. apply moveDown_allNodesFrom.
  - rewrite flat_map_app, filter_app, !filter_flat_map.
    f_equal; apply flat_map_ext; intros s; apply flow_independent_of_data.
Qed.

Lemma find_app {A} (f : A -> bool) : forall l1 l2,
  find f (l1 ++ l2) =
  match find f l1 with
  | Some a => Some a
  | None => find f l2
  end.
Proof.
  induction l1 as [|a l1 IH]; intros l2; [reflexivity|].
  simpl. destruct (f a); [reflexivity | apply IH].
Qed.

Lemma sourceNodeId_app l1 l2 depId :
  resolves l1 depId = true ->
  sourceNodeId (l1 ++ l2) depId = sourceNodeId l1 depId.
Proof.
  intros R. apply resolves_hasVideo in R.
  destruct (hasVideo_find _ _ R) as [w Hw].
  destruct (owningSequence_some _ _ R) as [s [v [Ho _]]].
  unfold sourceNodeId, owningSequence in *.
  now rewrite flat_map_app, !find_app, Hw, Ho.
Qed.

Lemma dependencyEdges_app l1 l2 nodeId : forall deps,
  forallb (resolves l1) deps = true ->
  dependencyEdges (l1 ++ l2) nodeId deps = dependencyEdges l1 nodeId deps.
Proof.
  induction deps as [|d deps IH]; intros H; [reflexivity|].
  cbn [forallb] in H. apply andb_true_iff in H as [Hd H].
  unfold dependencyEdges in *. cbn [flat_map].
  now rewrite (sourceNodeId_app l1 l2 d Hd), (IH H).
Qed.

Lemma videoEdgesFrom_app l1 l2 s : forall vs prev,
  forallb (resolves l1) (flat_map dependenciesOf vs) = true ->
  videoEdgesFrom (l1 ++ l2) s prev vs = videoEdgesFrom l1 s prev vs.
Proof.
  induction vs as [|v vs IH]; intros prev H; [reflexivity|].
  cbn [flat_map] in H. rewrite forallb_app in H.
  apply andb_true_iff in H as [Hv H]. cbn [videoEdgesFrom].
  now rewrite (dependencyEdges_app l1 l2 _ _ Hv), (IH _ H).
Qed.

Lemma allEdges_app l1 l2 : forall seqs,
  forallb (resolves l1) (allDependencyEntries seqs) = true ->
  flat_map (sequenceEdges (l1 ++ l2)) seqs = flat_map (sequenceEdges l1) seqs.
Proof.
  induction seqs as [|s seqs IH]; intros H; [reflexivity|].
  unfold allDependencyEntries in *. cbn [flat_map] in *.
  rewrite forallb_app in H. apply andb_true_iff in H as [Hs H].
  unfold sequenceEdges at 1 3.
  now rewrite (videoEdgesFrom_app l1 l2 s _ _ Hs), (IH H).
Qed.

(** X6.  Appending sequences to a data file whose dependency entries all
    name videos of that file leaves the diagram built so far untouched:
    the old node and edge arrays are prefixes of the new ones. *)
Theorem appending_keeps_the_diagram : forall sequences more,
  dependencyClosed sequences = true ->
  exists ns es ns' es',
    buildDiagram sequences = Some (ns, es) /\
    buildDiagram (sequences ++ more) = Some (ns ++ ns', es ++ es').
Proof.
  intros l1 l2 H. rewrite !buildDiagram_eq.
  exists (allNodesFrom 0 l1), (flat_map (sequenceEdges l1) l1).
  exists (allNodesFrom (0 + Z.of_nat (length l1) * sequenceSpacing) l2),
    (flat_map (sequenceEdges (l1 ++ l2)) l2).
  split; [reflexivity|].
  now rewrite allNodesFrom_app, flat_map_app, (allEdges_app l1 l2 l1 H).
Qed.

Lemma appending_keeps_the_diagram_witness :
  exists ns es ns' es',
    buildDiagram example_sequences = Some (ns, es) /\
    buildDiagram (example_sequences ++ shared_sequences) =
    Some (ns ++ ns', es ++ es').
Proof.
  exact (appending_keeps_the_diagram example_sequences shared_sequences
           eq_refl).
Defined.

(** The hypothesis of X6 is needed: an entry that names no video of the
    file can start to resolve when sequences are appended. *)
Example appending_can_add_edges :
  exists ns1 es1 ns es,
    buildDiagram [sequence_B] = Some (ns1, es1) /\
    buildDiagram ([sequence_B] ++ [sequence_A]) = Some (ns, es) /\
    length es1 = 1%nat /\ firstn 2 (map endpoints es) =
    [("sequence-B", "B-b1"); ("A-a2", "B-b1")].
Proof. eexists _, _, _, _. repeat split; reflexivity. Qed.

(** ** The two lookups of a dependency identifier *)

Lemma existsb_find {A} (f : A -> bool) (l : list A) :
  existsb f l = match find f l with Some _ => true | None => false end.
Proof.
  induction l as [|a l IH]; [reflexivity|].
  simpl. destruct (f a); [reflexivity | exact IH].
Qed.

Lemma find_flat_owning depId : forall sequences v,
  find (hasId depId) (flat_map sequence_videos sequences) = Some v ->
  exists s, owningSequence sequences depId = Some s /\
            In s sequences /\ In v (sequence_videos s).
Proof.
  unfold owningSequence.
  induction sequences as [|s0 seqs IH]; intros v H; [discriminate|].
  cbn [flat_map find] in *. rewrite find_app in H. rewrite existsb_find.
  destruct (find (hasId depId) (sequence_videos s0)) as [w|] eqn:F.
  - injection H as ->. exists s0. split; [reflexivity|].
    split; [now left | now apply find_some in F].
  - destruct (IH v H) as [s [Ho [Hs Hv]]]. exists s.
    split; [exact Ho|]. split; [now right | exact Hv].
Qed.

(** X7.  The two lookups of lines 176-178 agree.  The video that the
    search of the flattened list finds belongs to the sequence that the
    search of the sequences finds, so the source of a prerequisite edge is
    the node of that very video; and one lookup fails exactly when the
    other does, so the word "undefined" is never put in a name. *)
Theorem lookups_agree : forall sequences depId,
  (forall v,
      find (hasId depId) (flat_map sequence_videos sequences) = Some v ->
      exists s,
        owningSequence sequences depId = Some s /\
        In s sequences /\ In v (sequence_videos s) /\
        video_id v = depId /\
        sourceNodeId sequences depId = Some (videoNodeId s v)) /\
  (find (hasId depId) (flat_map sequence_videos sequences) = None <->
   owningSequence sequences depId = None).
Proof.
  intros sequences depId. split.
  - intros v F. destruct (find_flat_owning _ _ _ F) as [s [Ho [Hs Hv]]].
    exists s. repeat split; auto.
    + apply find_some in F as [_ E]. now apply String.eqb_eq.
    + unfold sourceNodeId. rewrite F, Ho. unfold videoNodeId.
      apply find_some in F as [_ E]. apply String.eqb_eq in E.
      now rewrite E.
  - split; intros H.
    + destruct (owningSequence sequences depId) as [s|] eqn:Ho; [|reflexivity].
      unfold owningSequence in Ho. apply find_some in Ho as [Hs Ex].
      apply existsb_exists in Ex as [v [Hv E]].
      apply find_none with (x := v) in H; [congruence|].
      apply in_flat_map. now exists s.
    + destruct (find _ (flat_map _ _)) as [v|] eqn:F; [|reflexivity].
      destruct (find_flat_owning _ _ _ F) as [s [Ho _]]. congruence.
Qed.

Lemma lookups_agree_witness :
  exists s,
    owningSequence shared_sequences "x" = Some s /\
    sourceNodeId shared_sequences "x" = Some "Q-x".
Proof.
  destruct (lookups_agree shared_sequences "x") as [H _].
  destruct (H (mkVideo "x" "t" "d" "u" None) eq_refl)
    as [s [Ho [_ [_ [_ Hsrc]]]]].
  exists s. split; [exact Ho|].
  assert (E : owningSequence shared_sequences "x" =
              Some (mkSequence "Q" "t" "d" "green"
                      [mkVideo "x" "t" "d" "u" None])) by reflexivity.
  rewrite E in Ho. injection Ho as <-. exact Hsrc.
Defined.

(** ** Repeated dependency entries *)







(** * Further properties of the URL expression *)

Lemma append_empty_r (s : string) : (s ++ "")%string = s.
Proof. induction s as [|c s IH]; simpl; [reflexivity | now rewrite IH]. Qed.

Lemma append_assoc (a b c : string) :
  ((a ++ b) ++ c)%string = (a ++ (b ++ c))%string.
Proof. induction a as [|x a IH]; simpl; [reflexivity | now rewrite IH]. Qed.

Lemma takeClass_split : forall s,
  exists rest,
    s = (takeClass s ++ rest)%string /\
    allIdChars (takeClass s) = true /\ delimited rest = true.
Proof.
  induction s as [|c s IH].
  - now exists EmptyString.
  - simpl. destruct (idChar c) eqn:Hc.
    + destruct IH as [rest [E [Ha Hd]]]. exists rest. simpl.
      rewrite Hc, Ha, <- E. now repeat split.
    + exists (String c s). simpl. rewrite Hc. now repeat split.
Qed.

Lemma takeClass_run : forall g rest,
  allIdChars g = true -> delimited rest = true ->
  takeClass (g ++ rest) = g.
Proof.
  induction g as [|c g IH]; intros rest Hg Hr.
  - destruct rest as [|d rest]; [reflexivity|]. simpl in *.
    now apply negb_true_iff in Hr as ->.
  - simpl in *. apply andb_true_iff in Hg as [-> Hg]. now rewrite IH.
Qed.

Lemma matchHere_capture : forall alts s g,
  matchHere alts s = Some g ->
  exists p rest,
    In p alts /\ s = (p ++ g ++ rest)%string /\ g <> EmptyString /\
    allIdChars g = true /\ delimited rest = true.
Proof.
  induction alts as [|p alts IH]; intros s g; simpl; [discriminate|].
  destruct (afterLiteral p s) as [r|] eqn:A.
  - destruct (takeClass r) as [|c t] eqn:T.
    + intros H. destruct (IH s g H) as [q [rest [Hq H']]].
      exists q, rest. split; [now right | exact H'].
    + intros [= <-]. apply afterLiteral_spec in A.
      destruct (takeClass_split r) as [rest [E [Ha Hd]]]. rewrite T in *.
      exists p, rest. split; [now left|]. split; [now rewrite <- E|].
      split; [discriminate | now split].
  - intros H. destruct (IH s g H) as [q [rest [Hq H']]].
    exists q, rest. split; [now right | exact H'].
Qed.

Lemma matchHere_none_iff alts s :
  matchHere alts s = None <->
  forall p c post, In p alts -> idChar c = true ->
                   s <> (p ++ String c post)%string.
Proof.
  split; [apply matchHere_none|]. intros H.
  destruct (matchHere alts s) as [g|] eqn:M; [|reflexivity].
  apply matchHere_some in M as [_ [p [c [post [Hp [Hc E]]]]]].
  now contradiction (H p c post).
Qed.

Lemma matchHere_at_literal p g rest :
  In p alternatives -> g <> EmptyString ->
  allIdChars g = true -> delimited rest = true ->
  matchHere alternatives (p ++ g ++ rest) = Some g.
Proof.
  intros Hp Hg Ha Hd.
  assert (T := takeClass_run g rest Ha Hd).
  destruct g as [|c g]; [now contradiction Hg|].
  destruct Hp as [<-|[<-|[<-|[]]]]; simpl matchHere;
    rewrite ?Ascii.eqb_refl; simpl in T |- *; now rewrite T.
Qed.

Lemma noEarlierMatch_nil tail : noEarlierMatch EmptyString tail.
Proof.
  intros pre1 pre2 q c post E Hne. destruct pre1; [|discriminate].
  simpl in E. now subst.
Qed.

Lemma noEarlierMatch_cons a pre tail :
  matchHere alternatives (String a pre ++ tail) = None ->
  noEarlierMatch pre tail -> noEarlierMatch (String a pre) tail.
Proof.
  intros M H pre1 pre2 q c post E Hne Hq Hc.
  destruct pre1 as [|b pre1]; simpl in E.
  - subst pre2. now apply (matchHere_none _ _ M).
  - injection E as _ E. now apply (H pre1 pre2).
Qed.

Lemma noEarlierMatch_inv a pre tail :
  noEarlierMatch (String a pre) tail ->
  matchHere alternatives (String a pre ++ tail) = None /\
  noEarlierMatch pre tail.
Proof.
  intros H. split.
  - apply matchHere_none_iff. intros p c post Hp Hc.
    now apply (H EmptyString (String a pre) p c post).
  - intros pre1 pre2 q c post E Hne.
    apply (H (String a pre1) pre2 q c post); [|exact Hne].
    simpl. now rewrite E.
Qed.

Lemma matchAnywhere_result : forall url id,
  matchAnywhere url = Some id <->
  exists pre p rest,
    url = (pre ++ p ++ id ++ rest)%string /\
    In p alternatives /\ id <> EmptyString /\
    allIdChars id = true /\ delimited rest = true /\
    noEarlierMatch pre (p ++ id ++ rest).
Proof.
  intros url id. split.
  - revert id. induction url as [|a url IH]; intros id;
      rewrite matchAnywhere_unfold.
    + discriminate.
    + destruct (matchHere alternatives (String a url)) as [g|] eqn:M.
      * intros [= <-].
        apply matchHere_capture in M as [p [rest [Hp [E [Hg [Ha Hd]]]]]].
        exists EmptyString, p, rest. repeat split; auto.
        apply noEarlierMatch_nil.
      * intros H. destruct (IH id H) as [pre [p [rest [E [Hp [Hg [Ha [Hd Hn]]]]]]]].
        exists (String a pre), p, rest. repeat split; auto.
        -- simpl. now rewrite E.
        -- apply noEarlierMatch_cons; [|exact Hn]. simpl. now rewrite <- E.
  - intros [pre [p [rest [-> [Hp [Hg [Ha [Hd Hn]]]]]]]].
    induction pre as [|a pre IH]; rewrite matchAnywhere_unfold.
    + simpl append. now rewrite matchHere_at_literal.
    + apply noEarlierMatch_inv in Hn as [M Hn]. rewrite M. simpl.
      now apply IH.
Qed.

Lemma matchHere_not_y c s :
  (c =? "y")%char = false -> matchHere alternatives (String c s) = None.
Proof.
  intros H. rewrite Ascii.eqb_sym in H. unfold alternatives.
  cbn [matchHere afterLiteral]. now rewrite H.
Qed.

Lemma matchAnywhere_skip : forall pre url,
  noY pre = true -> matchAnywhere (pre ++ url) = matchAnywhere url.
Proof.
  induction pre as [|c pre IH]; intros url H.
  - reflexivity.
  - simpl in H. apply andb_true_iff in H as [Hc H].
    apply negb_true_iff in Hc. simpl append.
    rewrite matchAnywhere_unfold, (matchHere_not_y _ _ Hc). now apply IH.
Qed.

Lemma matchAnywhere_round_trip pre p id rest :
  noY pre = true -> In p alternatives ->
  id <> EmptyString -> allIdChars id = true -> delimited rest = true ->
  matchAnywhere (pre ++ p ++ id ++ rest) = Some id.
Proof.
  intros Hpre Hp Hid Ha Hd. rewrite (matchAnywhere_skip pre _ Hpre).
  rewrite matchAnywhere_unfold. now rewrite matchHere_at_literal.
Qed.

Lemma matchAnywhere_no_literal s :
  literalAnywhere s = false -> matchAnywhere s = None.
Proof.
  intros H. destruct (matchAnywhere s) as [g|] eqn:M; [|reflexivity].
  apply matchAnywhere_some in M as [_ M].
  apply containsLiteralAndId_containsLiteral in M.
  apply containsLiteral_literalAnywhere in M. congruence.
Qed.

(** X8.  What the recognizer returns, in full: it returns [id] exactly
    when the URL reads [pre ++ p ++ id ++ rest], where [p] is one of the
    three literals, [id] is a non-empty run of characters other than [&],
    newline, [?] and [#], [rest] is empty or starts with one of these
    four, and the expression matches at no position inside [pre]. *)
Theorem recognizer_result : forall url id,
  getYouTubeVideoId url = Some id <->
  exists pre p rest,
    url = (pre ++ p ++ id ++ rest)%string /\
    In p alternatives /\ id <> EmptyString /\
    allIdChars id = true /\ delimited rest = true /\
    noEarlierMatch pre (p ++ id ++ rest).
Proof. intros url id. apply matchAnywhere_result. Qed.

Lemma recognizer_result_witness :
  getYouTubeVideoId "https://www.youtube.com/watch?v=dQw4w9WgXcQ&t=42" =
  Some "dQw4w9WgXcQ".
Proof.
  apply (recognizer_result
           "https://www.youtube.com/watch?v=dQw4w9WgXcQ&t=42" "dQw4w9WgXcQ").
  exists "https://www.", "youtube.com/watch?v=", "&t=42".
  split; [reflexivity|]. split; [simpl; auto|].
  split; [discriminate|]. split; [reflexivity|]. split; [reflexivity|].
  intros pre1 pre2 q c post E Hne Hq Hc Heq.
  assert (M : matchHere alternatives
                (pre2 ++ "youtube.com/watch?v=" ++ "dQw4w9WgXcQ" ++ "&t=42")
              = None).
  { clear Hq Hc Heq.
    do 12 (destruct pre1 as [|? pre1];
           [simpl in E; subst pre2; reflexivity
           | simpl in E; injection E as _ E]).
    destruct pre1; [|discriminate]. simpl in E. now subst pre2. }
  now apply (matchHere_none _ _ M q c post).
Defined.

(** X9.  Text without the letter y in front of a URL does not change the
    result: every literal of the expression starts with a y, so no match
    can begin inside such a prefix. *)
Theorem prefix_without_y_is_skipped : forall pre url,
  noY pre = true ->
  getYouTubeVideoId (pre ++ url) = getYouTubeVideoId url.
Proof. intros pre url H. now apply matchAnywhere_skip. Qed.

Lemma prefix_without_y_is_skipped_witness :
  getYouTubeVideoId ("https://www." ++ "youtube.com/embed/abc") =
  getYouTubeVideoId "youtube.com/embed/abc".
Proof.
  exact (prefix_without_y_is_skipped "https://www." "youtube.com/embed/abc"
           eq_refl).
Defined.

(** X10.  Round trip on the usual URL forms: from a URL made of a prefix
    without the letter y (such as "https://www." or "https://"), one of
    the three literals, a non-empty identifier free of [&], newline, [?]
    and [#], and a rest that is empty or starts with one of these four,
    the recognizer returns that identifier. *)
Theorem identifier_round_trip : forall pre p id rest,
  noY pre = true -> In p alternatives ->
  id <> EmptyString -> allIdChars id = true -> delimited rest = true ->
  getYouTubeVideoId (pre ++ p ++ id ++ rest) = Some id.
Proof.
  intros pre p id rest Hpre Hp Hid Ha Hd.
  now apply matchAnywhere_round_trip.
Qed.

Lemma identifier_round_trip_witness :
  getYouTubeVideoId ("https://" ++ "youtu.be/" ++ "dQw4w9WgXcQ" ++ "?si=abc") =
  Some "dQw4w9WgXcQ".
Proof.
  apply (identifier_round_trip "https://" "youtu.be/" "dQw4w9WgXcQ" "?si=abc").
  - reflexivity.
  - simpl. auto.
  - discriminate.
  - reflexivity.
  - reflexivity.
Defined.

(** X11.  The address of the embedded player is itself a recognized URL
    with the same identifier: feeding the rendered [src] back to the
    component gives the same identifier and the same [src]. *)
Theorem embed_src_is_stable : forall url src,
  videoEmbedSrc url = Some src ->
  getYouTubeVideoId src = getYouTubeVideoId url /\
  videoEmbedSrc src = Some src.
Proof.
  intros url src. unfold videoEmbedSrc at 1.
  destruct (getYouTubeVideoId url) as [id|] eqn:G; [|discriminate].
  destruct (truthy (Some id)); [|discriminate]. intros [= <-].
  apply matchAnywhere_result in G
    as [pre [p [rest [_ [_ [Hid [Ha _]]]]]]].
  assert (E : getYouTubeVideoId ("https://www.youtube.com/embed/" ++ id)
              = Some id).
  { rewrite <- (append_empty_r id) at 1.
    apply (matchAnywhere_round_trip "https://www." "youtube.com/embed/" id "");
      auto. simpl. auto. }
  assert (V : videoEmbedSrc ("https://www.youtube.com/embed/" ++ id)
              = Some ("https://www.youtube.com/embed/" ++ id)%string).
  { unfold videoEmbedSrc. rewrite E.
    destruct id; [now contradiction Hid | reflexivity]. }
  split; [exact E | exact V].
Qed.

Lemma embed_src_is_stable_witness :
  getYouTubeVideoId "https://www.youtube.com/embed/xyz" =
  getYouTubeVideoId "https://youtu.be/xyz?t=3" /\
  videoEmbedSrc "https://www.youtube.com/embed/xyz" =
  Some "https://www.youtube.com/embed/xyz".
Proof.
  exact (embed_src_is_stable "https://youtu.be/xyz?t=3"
           "https://www.youtube.com/embed/xyz" eq_refl).
Defined.

(** X12.  The [v] parameter has to come first: a watch URL whose query
    does not start with [v=], and holds none of the three literals, gives
    no identifier, wherever the [v] parameter stands in it. *)
Theorem v_parameter_must_come_first : forall query,
  afterLiteral "v=" query = None ->
  literalAnywhere query = false ->
  getYouTubeVideoId ("https://www.youtube.com/watch?" ++ query) = None /\
  videoEmbedSrc ("https://www.youtube.com/watch?" ++ query) = None.
Proof.
  intros query Hv Hq.
  assert (E : getYouTubeVideoId ("https://www.youtube.com/watch?" ++ query)
              = None).
  { unfold getYouTubeVideoId.
    change ("https://www.youtube.com/watch?" ++ query)%string
      with ("https://www." ++ String "y" ("outube.com/watch?" ++ query))%string.
    rewrite matchAnywhere_skip by reflexivity.
    rewrite matchAnywhere_unfold.
    assert (M : matchHere alternatives
                  (String "y" ("outube.com/watch?" ++ query)) = None).
    { unfold alternatives. cbn [matchHere afterLiteral append].
      rewrite !Ascii.eqb_refl. cbn [afterLiteral] in Hv. rewrite Hv.
      reflexivity. }
    rewrite M. rewrite matchAnywhere_skip by reflexivity.
    now apply matchAnywhere_no_literal. }
  split; [exact E|]. unfold videoEmbedSrc. now rewrite E.
Qed.

Lemma v_parameter_must_come_first_witness :
  getYouTubeVideoId
    ("https://www.youtube.com/watch?" ++ "feature=share&v=dQw4w9WgXcQ") = None /\
  videoEmbedSrc
    ("https://www.youtube.com/watch?" ++ "feature=share&v=dQw4w9WgXcQ") = None.
Proof.
  exact (v_parameter_must_come_first "feature=share&v=dQw4w9WgXcQ"
           eq_refl eq_refl).
Defined.

(** * Prerequisite edges, edge by edge *)

Lemma map_flat_map {A B C} (f : B -> C) (g : A -> list B) (l : list A) :
  map f (flat_map g l) = flat_map (fun a => map f (g a)) l.
Proof.
  induction l as [|a l IH]; simpl; [reflexivity|].
  now rewrite map_app, IH.
Qed.

Lemma dependencyEdges_endpoint_list sequences nodeId deps :
  map endpoints (dependencyEdges sequences nodeId deps) =
  flat_map (fun depId =>
              match sourceNodeId sequences depId with
              | Some src => [(src, nodeId)]
              | None => []
              end) deps.
Proof.
  unfold dependencyEdges. rewrite map_flat_map. apply flat_map_ext.
  intros d. destruct (sourceNodeId sequences d); reflexivity.
Qed.

Lemma In_dependencyEdges sequences nodeId deps d src :
  In d deps -> sourceNodeId sequences d = Some src ->
  In (prerequisiteEdge src nodeId) (dependencyEdges sequences nodeId deps).
Proof.
  intros Hd Hsrc. unfold dependencyEdges. apply in_flat_map.
  exists d. split; [exact Hd|]. rewrite Hsrc. now left.
Qed.

Lemma In_videoEdgesFrom sequences s v e : forall vs prev,
  In v vs ->
  In e (dependencyEdges sequences (videoNodeId s v) (dependenciesOf v)) ->
  In e (videoEdgesFrom sequences s prev vs).
Proof.
  induction vs as [|w vs IH]; intros prev Hv He; [destruct Hv|].
  cbn [videoEdgesFrom]. right. apply in_or_app. destruct Hv as [->|Hv].
  - now left.
  - right. now apply IH.
Qed.

Lemma In_allEdges sequences s v d src :
  In s sequences -> In v (sequence_videos s) -> In d (dependenciesOf v) ->
  sourceNodeId sequences d = Some src ->
  In (prerequisiteEdge src (videoNodeId s v))
     (flat_map (sequenceEdges sequences) sequences).
Proof.
  intros Hs Hv Hd Hsrc. apply in_flat_map. exists s. split; [exact Hs|].
  unfold sequenceEdges. apply (In_videoEdgesFrom sequences s v); [exact Hv|].
  now apply (In_dependencyEdges sequences _ _ d).
Qed.

Lemma sourceNodeId_first pre s post depId :
  (forall s' v', In s' pre -> In v' (sequence_videos s') ->
                 video_id v' <> depId) ->
  (exists v, In v (sequence_videos s) /\ video_id v = depId) ->
  sourceNodeId (pre ++ s :: post) depId =
  Some (sequence_id s ++ "-" ++ depId)%string.
Proof.
  intros Hpre Hs.
  assert (Hv : hasVideo (pre ++ s :: post) depId).
  { destruct Hs as [v [Hv E]]. exists s, v. repeat split; auto.
    apply in_or_app. right. now left. }
  unfold sourceNodeId. destruct (hasVideo_find _ _ Hv) as [w ->].
  now rewrite (owningSequence_first pre s post depId Hpre Hs).
Qed.

(** C2.  Every entry of a video's dependency list is handled on its own.
    When some video of the data set has the identifier, the callback
    appends exactly one edge to the edge array: a prerequisite edge whose
    source is the node of a video with that identifier and whose target is
    the node of the dependent video.  Otherwise it leaves the arrays as
    they are.  Nothing throws: the builder returns for every input, and
    the endpoints of its prerequisite edges are, in order, what the
    entries of all dependency lists resolve to. *)
Theorem prerequisite_edges : forall sequences,
  (exists ns es,
      buildDiagram sequences = Some (ns, es) /\
      map endpoints (filter isPrerequisite es) =
        flat_map (fun s =>
          flat_map (fun v =>
            flat_map (fun depId =>
                        match sourceNodeId sequences depId with
                        | Some src => [(src, videoNodeId s v)]
                        | None => []
                        end)
                     (dependenciesOf v))
            (sequence_videos s))
          sequences) /\
  (forall depId,
      hasVideo sequences depId ->
      exists s v,
        In s sequences /\ In v (sequence_videos s) /\ video_id v = depId /\
        sourceNodeId sequences depId = Some (videoNodeId s v) /\
        forall nodeId i st,
        exists e,
          dependencyCallback sequences nodeId depId i st =
            Some (mkBuilder (nodes st) (edges st ++ [e]) (yOffset st)) /\
          edge_source e = videoNodeId s v /\
          edge_target e = nodeId /\
          isPrerequisite e = true /\ isSequenceFlow e = false) /\
  (forall depId,
      ~ hasVideo sequences depId ->
      sourceNodeId sequences depId = None /\
      forall nodeId i st,
        dependencyCallback sequences nodeId depId i st = Some st).
Proof.
  intros sequences. split; [|split].
  - rewrite buildDiagram_eq. eexists _, _. split; [reflexivity|].
    rewrite filter_flat_map, map_flat_map. apply flat_map_ext. intros s.
    unfold sequenceEdges. rewrite prerequisite_of_videoEdgesFrom.
    rewrite map_flat_map. apply flat_map_ext. intros v.
    apply dependencyEdges_endpoint_list.
  - intros depId H.
    destruct (sourceNodeId_resolved _ _ H) as [s [v [_ [Hs [Hv [E Hsrc]]]]]].
    exists s, v. repeat split; auto. intros nodeId i st.
    exists (prerequisiteEdge (videoNodeId s v) nodeId).
    rewrite dependencyCallback_eq. unfold dependencyEdges. cbn [flat_map].
    rewrite Hsrc. repeat split.
  - intros depId H. apply sourceNodeId_unresolved in H.
    split; [exact H|]. intros nodeId i st.
    unfold dependencyCallback. now rewrite H.
Qed.

Lemma prerequisite_edges_witness :
  (exists e,
      dependencyCallback shared_sequences "P-p" "x" 0 initialBuilder =
        Some (mkBuilder [] [e] 0) /\
      edge_source e = "Q-x" /\ edge_target e = "P-p") /\
  dependencyCallback shared_sequences "P-p" "nowhere" 1 initialBuilder =
    Some initialBuilder.
Proof.
  destruct (prerequisite_edges shared_sequences) as [_ [Hyes Hno]]. split.
  - destruct (Hyes "x") as [s [v [Hs [Hv [E [Hsrc Hcb]]]]]].
    + exists (mkSequence "Q" "t" "d" "green" [mkVideo "x" "t" "d" "u" None]),
        (mkVideo "x" "t" "d" "u" None).
      simpl. auto.
    + destruct (Hcb "P-p" 0%nat initialBuilder) as [e [He [Hs' [Ht _]]]].
      exists e. split; [exact He|]. split; [|exact Ht].
      rewrite Hs'.
      assert (Q : sourceNodeId shared_sequences "x" = Some "Q-x")
        by reflexivity.
      rewrite Q in Hsrc. now injection Hsrc as <-.
  - apply (Hno "nowhere").
    intros [s [v [Hs [Hv E]]]]. simpl in Hs.
    destruct Hs as [<-|[<-|[<-|[]]]]; simpl in Hv;
      destruct Hv as [<-|[]]; discriminate.
Defined.

(** C8.  A dependency identifier carried by videos of several sequences
    resolves to the first sequence, in input order, that has a video with
    it.  The callback appends one prerequisite edge whose source is named
    from that sequence's identifier, and in the diagram every video that
    lists the identifier is the target of a prerequisite edge with that
    source. *)
Theorem dependency_resolves_to_first_sequence : forall pre s post depId,
  (forall s' v', In s' pre -> In v' (sequence_videos s') ->
                 video_id v' <> depId) ->
  (exists v, In v (sequence_videos s) /\ video_id v = depId) ->
  (forall nodeId i st,
    exists e,
      dependencyCallback (pre ++ s :: post) nodeId depId i st =
        Some (mkBuilder (nodes st) (edges st ++ [e]) (yOffset st)) /\
      edge_source e = (sequence_id s ++ "-" ++ depId)%string /\
      edge_target e = nodeId /\
      isPrerequisite e = true) /\
  exists ns es,
    buildDiagram (pre ++ s :: post) = Some (ns, es) /\
    In (sequence_id s ++ "-" ++ depId)%string (node_ids ns) /\
    forall s0 v0,
      In s0 (pre ++ s :: post) -> In v0 (sequence_videos s0) ->
      In depId (dependenciesOf v0) ->
      exists e,
        In e es /\ isPrerequisite e = true /\
        edge_source e = (sequence_id s ++ "-" ++ depId)%string /\
        edge_target e = videoNodeId s0 v0.
Proof.
  intros pre s post depId Hpre Hs.
  assert (Hsrc := sourceNodeId_first pre s post depId Hpre Hs). split.
  - intros nodeId i st.
    exists (prerequisiteEdge (sequence_id s ++ "-" ++ depId)%string nodeId).
    rewrite dependencyCallback_eq. unfold dependencyEdges. cbn [flat_map].
    rewrite Hsrc. repeat split.
  - rewrite buildDiagram_eq. eexists _, _. split; [reflexivity|]. split.
    + rewrite node_ids_allNodesFrom. destruct Hs as [v [Hv <-]].
      apply videoNodeIds_in_nodeIds.
      apply (videoNodeId_in_videoNodeIds _ s v); [|exact Hv].
      apply in_or_app. right. now left.
    + intros s0 v0 Hs0 Hv0 Hd.
      exists (prerequisiteEdge (sequence_id s ++ "-" ++ depId)%string
                (videoNodeId s0 v0)).
      split; [|repeat split].
      now apply (In_allEdges _ s0 v0 depId).
Qed.

Lemma dependency_resolves_to_first_sequence_witness :
  exists ns es,
    buildDiagram shared_sequences = Some (ns, es) /\
    exists e,
      In e es /\ isPrerequisite e = true /\
      edge_source e = "Q-x" /\ edge_target e = "P-p".
Proof.
  destruct (dependency_resolves_to_first_sequence
              [mkSequence "P" "t" "d" "red"
                 [mkVideo "p" "t" "d" "u" (Some ["x"; "nowhere"])]]
              (mkSequence "Q" "t" "d" "green" [mkVideo "x" "t" "d" "u" None])
              [mkSequence "R" "t" "d" "blue" [mkVideo "x" "t" "d" "u" None]]
              "x") as [_ [ns [es [Hb [_ H]]]]].
  - intros s' v' [<-|[]] [<-|[]]. discriminate.
  - exists (mkVideo "x" "t" "d" "u" None). split; [now left | reflexivity].
  - exists ns, es. split; [exact Hb|].
    apply (H (mkSequence "P" "t" "d" "red"
                [mkVideo "p" "t" "d" "u" (Some ["x"; "nowhere"])])
             (mkVideo "p" "t" "d" "u" (Some ["x"; "nowhere"]))).
    + now left.
    + now left.
    + now left.
Defined.

(** * A sequence without videos *)

Lemma sourceNodeId_without_empty pre s post depId :
  sequence_videos s = [] ->
  sourceNodeId (pre ++ s :: post) depId = sourceNodeId (pre ++ post) depId.
Proof.
  intros Hs. unfold sourceNodeId, owningSequence.
  rewrite !flat_map_app, !find_app. cbn [flat_map find].
  rewrite Hs. cbn [app existsb]. reflexivity.
Qed.

Lemma dependencyEdges_ext seqsA seqsB nodeId deps :
  (forall d, sourceNodeId seqsA d = sourceNodeId seqsB d) ->
  dependencyEdges seqsA nodeId deps = dependencyEdges seqsB nodeId deps.
Proof.
  intros H. unfold dependencyEdges. apply flat_map_ext. intros d.
  now rewrite H.
Qed.

Lemma videoEdgesFrom_ext seqsA seqsB s :
  (forall d, sourceNodeId seqsA d = sourceNodeId seqsB d) ->
  forall vs prev,
    videoEdgesFrom seqsA s prev vs = videoEdgesFrom seqsB s prev vs.
Proof.
  intros H. induction vs as [|v vs IH]; intros prev; [reflexivity|].
  cbn [videoEdgesFrom]. now rewrite (dependencyEdges_ext seqsA seqsB _ _ H), IH.
Qed.

Lemma allEdges_without_empty pre s post :
  sequence_videos s = [] ->
  flat_map (sequenceEdges (pre ++ s :: post)) (pre ++ s :: post) =
  flat_map (sequenceEdges (pre ++ post)) (pre ++ post).
Proof.
  intros Hs.
  assert (E : forall x, sequenceEdges (pre ++ s :: post) x =
                        sequenceEdges (pre ++ post) x).
  { intros x. unfold sequenceEdges. apply videoEdgesFrom_ext.
    intros d. now apply sourceNodeId_without_empty. }
  rewrite !flat_map_app. cbn [flat_map].
  unfold sequenceEdges at 2. rewrite Hs. cbn [videoEdgesFrom app].
  f_equal; apply flat_map_ext; intros x; apply E.
Qed.

(** C9.  A sequence without videos contributes its header node and
    nothing else.  In the diagram of a list that holds such a sequence,
    the nodes are those of the sequences before it, then its header node
    at x = 0 in its own row, then those of the sequences after it, which
    lie one spacing lower than the sequences before them alone would put
    them; the edges are those of the list without the empty sequence.
    The callback of the empty sequence pushes the header node, pushes no
    edge and advances the vertical offset by the spacing constant. *)
Theorem empty_sequence_header_only : forall pre s post,
  sequence_videos s = [] ->
  exists ns_pre es_pre ns_post es_post ns0 es0 ns es n,
    buildDiagram pre = Some (ns_pre, es_pre) /\
    buildDiagram post = Some (ns_post, es_post) /\
    buildDiagram (pre ++ post) = Some (ns0, es0) /\
    buildDiagram (pre ++ s :: post) = Some (ns, es) /\
    ns = ns_pre ++
         n :: map (moveDown (Z.of_nat (length pre + 1) * sequenceSpacing))
                ns_post /\
    node_id n = headerNodeId s /\
    node_type n = sequenceHeader /\
    node_position n = mkPosition 0 (Z.of_nat (length pre) * sequenceSpacing) /\
    length ns = S (length ns0) /\
    es = es0 /\
    forall i st,
      sequenceCallback (pre ++ s :: post) s i st =
      Some (mkBuilder (nodes st ++ [headerNode s (yOffset st)])
              (edges st) (yOffset st + sequenceSpacing)).
Proof.
  intros pre s post Hs. rewrite !buildDiagram_eq.
  eexists _, _, _, _, _, _, _, _, (headerNode s _).
  do 4 (split; [reflexivity|]). split; [|split; [|split; [|split; [|split; [|split]]]]].
  - rewrite allNodesFrom_app. f_equal. cbn [allNodesFrom].
    unfold sequenceNodes. rewrite Hs. cbn [videoNodesFrom app]. f_equal.
    rewrite <- moveDown_allNodesFrom. f_equal. lia.
  - reflexivity.
  - reflexivity.
  - reflexivity.
  - rewrite !allNodesFrom_length, !length_app. cbn [length].
    unfold totalVideos. rewrite !map_app, !list_sum_app. cbn [map list_sum].
    rewrite Hs. simpl. lia.
  - now apply allEdges_without_empty.
  - intros i st. unfold sequenceCallback, forEach. rewrite Hs. reflexivity.
Qed.

Lemma empty_sequence_header_only_witness :
  exists ns es ns0,
    buildDiagram ([sequence_A] ++ empty_sequence :: [sequence_B])
      = Some (ns, es) /\
    buildDiagram ([sequence_A] ++ [sequence_B]) = Some (ns0, es) /\
    length ns = S (length ns0) /\
    node_ids ns =
      ["sequence-A"; "A-a1"; "A-a2"; "sequence-E"; "sequence-B"; "B-b1"] /\
    map node_position ns =
      [mkPosition 0 0; mkPosition 420 0; mkPosition 840 0;
       mkPosition 0 600; mkPosition 0 1200; mkPosition 420 1200].
Proof.
  destruct (empty_sequence_header_only [sequence_A] empty_sequence
              [sequence_B] eq_refl)
    as [ns_pre [es_pre [ns_post [es_post [ns0 [es0 [ns [es [n
       [Hpre [Hpost [H0 [Hb [Hns [Hid [Hty [Hpos [Hlen [Hes _]]]]]]]]]]]]]]]]]]].
  exists ns, es, ns0. split; [exact Hb|].
  split; [rewrite Hes; exact H0|]. split; [exact Hlen|].
  assert (Ens := Hb). rewrite buildDiagram_eq in Ens.
  injection Ens as <- _. split; reflexivity.
Defined.

(** * Video nodes and the edges that enter them *)

Lemma NoDup_map_filter {A B} (f : A -> B) (p : A -> bool) : forall l,
  NoDup (map f l) -> NoDup (map f (filter p l)).
Proof.
  induction l as [|a l IH]; intros H; [constructor|].
  cbn [map] in H. apply NoDup_cons_iff in H as [Hin H].
  cbn [filter]. destruct (p a); [|now apply IH].
  cbn [map]. constructor; [|now apply IH].
  intros Hf. apply Hin. apply in_map_iff in Hf as [b [E Hb]].
  apply filter_In in Hb as [Hb _]. apply in_map_iff. now exists b.
Qed.

(** X2.  The targets of the sequence-flow edges, in edge order, are the
    identifiers of the video nodes in node order.  When the node
    identifiers of the diagram are pairwise distinct, every video node is
    the target of exactly one sequence-flow edge. *)
Theorem flow_targets_are_video_nodes : forall sequences,
  exists ns es,
    buildDiagram sequences = Some (ns, es) /\
    map edge_target (filter isSequenceFlow es) =
      node_ids (filter isVideoNode ns) /\
    (NoDup (node_ids ns) ->
     forall n, In n ns -> isVideoNode n = true ->
       count_occ string_dec
         (map edge_target (filter isSequenceFlow es)) (node_id n) = 1%nat).
Proof.
  intros sequences. rewrite buildDiagram_eq. eexists _, _.
  split; [reflexivity|].
  assert (E : map edge_target
                (filter isSequenceFlow
                   (flat_map (sequenceEdges sequences) sequences)) =
              node_ids (filter isVideoNode (allNodesFrom 0 sequences))).
  { rewrite node_ids_video_nodes, filter_flat_map. apply flow_targets. }
  split; [exact E|]. intros Hnd n Hn Hv. rewrite E.
  apply (proj1 (NoDup_count_occ' string_dec _)).
  - unfold node_ids in *. now apply NoDup_map_filter.
  - unfold node_ids. apply in_map. apply filter_In. now split.
Qed.

Lemma flow_targets_are_video_nodes_witness :
  exists ns es,
    buildDiagram example_sequences = Some (ns, es) /\
    count_occ string_dec
      (map edge_target (filter isSequenceFlow es)) "B-b1" = 1%nat.
Proof.
  destruct (flow_targets_are_video_nodes example_sequences)
    as [ns [es [Hb [_ H]]]].
  exists ns, es. split; [exact Hb|].
  assert (E := Hb). rewrite buildDiagram_eq in E. injection E as En _.
  apply (H : _ -> forall n, _ -> _ ->
               count_occ string_dec _ (node_id n) = 1%nat)
    with (n := videoNodeOf sequence_B video_b1 0 600).
  - rewrite <- En. simpl. repeat constructor; simpl; intuition discriminate.
  - rewrite <- En. simpl. do 4 right. now left.
  - reflexivity.
Defined.
